(** * random-sunrise: the sunrise client and the batch that drives it

    A shallow embedding of [src/index.ts], which holds the program
    ([index.ts]: the batch and [findEarliestSunrise]) and its client
    ([sunriseClient.ts]: [get], [httpGetJson], [sleep]). Line numbers in
    the comments are those of [src/index.ts].

    - JavaScript numbers are IEEE 754 binary64 values, modelled by the
      Standard Library's [spec_float] (sign, mantissa, exponent; the two
      zeros, the infinities and NaN).
    - JavaScript strings are modelled by [string]; each [ascii] stands for
      one code unit (code units below 256, which covers the ISO 8601
      timestamps, the status names and the query strings of this program).
    - The module-level [baseUrl] is one mutable object; it lives in a
      [store] that every call of [get] reads and writes.
    - An [async] function is a resumable task: it runs until its next
      [await], and is resumed by the response or the timer it waits for.
      The program is the list of these tasks, the bookkeeping of
      [Promise.all] over them and the two handlers; a schedule says which
      task is resumed by what, in order of time.
    - The list of locations is an input ([randomLatLon] draws it), and so
      are the answers to the requests ([httpGetJson] resolves with the
      parsed body or rejects). *)

From Stdlib Require Import ZArith Lia Bool Ascii String Decimal DecimalString DecimalN SpecFloat.
From stdpp Require Import base tactics option list strings.

(** ** Numbers *)

Module Number.

Local Open Scope Z_scope.

Definition number : Type := spec_float.

(** [x != 0] on a number: false exactly for [+0] and [-0] ([NaN != 0] is true). *)
Definition neq0 (x : number) : bool :=
  match x with
  | S754_zero _ => false
  | _ => true
  end.

(** The integer [z] as a number (exact while [z] fits the mantissa). *)
Definition of_Z (z : Z) : number :=
  match z with
  | Z0 => S754_zero false
  | Zpos p => S754_finite false p 0
  | Zneg p => S754_finite true p 0
  end.

Definition digit_char (n : nat) : ascii := ascii_of_nat (48 + n).

(** The characters of a decimal numeral, most significant digit first. *)
Fixpoint uint_chars (d : uint) : list ascii :=
  match d with
  | Nil => []
  | D0 d => digit_char 0 :: uint_chars d
  | D1 d => digit_char 1 :: uint_chars d
  | D2 d => digit_char 2 :: uint_chars d
  | D3 d => digit_char 3 :: uint_chars d
  | D4 d => digit_char 4 :: uint_chars d
  | D5 d => digit_char 5 :: uint_chars d
  | D6 d => digit_char 6 :: uint_chars d
  | D7 d => digit_char 7 :: uint_chars d
  | D8 d => digit_char 8 :: uint_chars d
  | D9 d => digit_char 9 :: uint_chars d
  end.

(** "the digits of the decimal representation of n (in order, with no
    leading zeroes)", and ["0"] for [n = 0]. *)
Definition decimal_digits (n : Z) : list ascii :=
  uint_chars (N.to_uint (Z.to_N n)).

(** [x >= 10^21] for the positive real [m * 2^e]. *)
Definition ge_1e21 (m : positive) (e : Z) : bool :=
  if 0 <=? e then 10 ^ 21 <=? Z.pos m * 2 ^ e
  else 10 ^ 21 * 2 ^ (- e) <=? Z.pos m.

(** "Let n be an integer for which n / 10^f - x is as close to zero as
    possible. If there are two such n, pick the larger n", for the
    positive real [x = m * 2^e]. *)
Definition nearest_scaled (f : nat) (m : positive) (e : Z) : Z :=
  if 0 <=? e then Z.pos m * 2 ^ e * 10 ^ Z.of_nat f
  else (2 * Z.pos m * 10 ^ Z.of_nat f + 2 ^ (- e)) / 2 ^ (1 - e).

(** Steps 10.b to 10.d of [Number.prototype.toFixed]: the digits of [n],
    padded on the left with zeros to [f + 1] characters, with a point
    before the last [f] of them. *)
Definition place_point (f : nat) (n : Z) : list ascii :=
  let m := decimal_digits n in
  let k := length m in
  let m := if (k <=? f)%nat then replicate (f + 1 - k)%nat (digit_char 0) ++ m else m in
  let k := length m in
  take (k - f)%nat m ++ "."%char :: drop (k - f)%nat m.

Section ToString.

(** [Number::toString] of the language (the shortest decimal that reads
    back as the same number, exponent notation from 10^21 on, ["NaN"],
    ["Infinity"]). The program reaches it through string concatenation
    and through [toFixed] on a number that is not finite or is at least
    10^21. *)
Variable numberToString : number -> string.

(** [x.toFixed(f)] for [0 <= f <= 100]. *)
Definition toFixed (f : nat) (x : number) : string :=
  match x with
  | S754_nan | S754_infinity _ => numberToString x
  | S754_zero _ => string_of_list_ascii (place_point f 0)
  | S754_finite s m e =>
      if ge_1e21 m e
      then (if s then "-" else "") +:+ numberToString (S754_finite false m e)
      else (if s then "-" else "") +:+ string_of_list_ascii (place_point f (nearest_scaled f m e))
  end.

End ToString.

(** The magnitude of [x] is below 10^21 and [x] is finite: [toFixed]
    answers in fixed-point notation. *)
Definition fixed_range (x : number) : bool :=
  match x with
  | S754_zero _ => true
  | S754_finite _ m e => negb (ge_1e21 m e)
  | _ => false
  end.

Definition is_digit (c : ascii) : bool :=
  let n := nat_of_ascii c in (48 <=? n)%nat && (n <=? 57)%nat.

(** Splits a list of characters at its first point. *)
Fixpoint split_point (l : list ascii) : option (list ascii * list ascii) :=
  match l with
  | [] => None
  | c :: l' =>
      if Ascii.eqb c "." then Some ([], l')
      else match split_point l' with
           | Some (a, b) => Some (c :: a, b)
           | None => None
           end
  end.

(** [s] is an optional minus sign, at least one digit, a point and
    exactly [f] digits. *)
Definition fixed_notation (f : nat) (s : string) : bool :=
  let l := list_ascii_of_string s in
  let l := match l with
           | c :: l' => if Ascii.eqb c "-" then l' else l
           | [] => l
           end in
  match split_point l with
  | Some (a, b) =>
      negb (length a =? 0)%nat && forallb is_digit a
      && (length b =? f)%nat && forallb is_digit b
  | None => false
  end.

(** [!x] on a number: true exactly for the zeros and NaN. *)
Definition falsy (x : number) : bool :=
  match x with
  | S754_zero _ | S754_nan => true
  | _ => false
  end.

(** The order of two finite numbers [z1 * 2^e1] and [z2 * 2^e2]. *)
Definition compare_scaled (z1 e1 z2 e2 : Z) : comparison :=
  let e := Z.min e1 e2 in
  Z.compare (z1 * 2 ^ (e1 - e)) (z2 * 2 ^ (e2 - e)).

(** A finite number as a signed mantissa and an exponent. *)
Definition scaled (x : number) : option (Z * Z) :=
  match x with
  | S754_zero _ => Some (0, 0)
  | S754_finite s m e => Some (if s then Z.neg m else Z.pos m, e)
  | _ => None
  end.

(** The order of two numbers by their values; [None] when one is NaN. *)
Definition compare (x y : number) : option comparison :=
  match x, y with
  | S754_nan, _ | _, S754_nan => None
  | S754_infinity s1, S754_infinity s2 =>
      Some (if s1 then (if s2 then Eq else Lt) else (if s2 then Gt else Eq))
  | S754_infinity s, _ => Some (if s then Lt else Gt)
  | _, S754_infinity s => Some (if s then Gt else Lt)
  | _, _ =>
      match scaled x, scaled y with
      | Some (z1, e1), Some (z2, e2) => Some (compare_scaled z1 e1 z2 e2)
      | _, _ => None
      end
  end.

(** [x < y] *)
Definition ltb (x y : number) : bool :=
  match compare x y with
  | Some Lt => true
  | _ => false
  end.

(** [x >= y] *)
Definition geb (x y : number) : bool :=
  match compare x y with
  | Some Gt | Some Eq => true
  | _ => false
  end.

End Number.

Export Number (number).

(** ** URLs *)

Module Url.

Definition hex_digit (n : N) : ascii :=
  if (n <? 10)%N then ascii_of_N (48 + n) else ascii_of_N (55 + n).

Definition percent_byte (b : N) : list ascii :=
  ["%"%char; hex_digit (b / 16); hex_digit (b mod 16)].

(** The code units the [application/x-www-form-urlencoded] serializer
    leaves as they are: ASCII letters and digits and [* - . _]. *)
Definition unreserved (c : ascii) : bool :=
  let n := N_of_ascii c in
  ((48 <=? n) && (n <=? 57) || (65 <=? n) && (n <=? 90) || (97 <=? n) && (n <=? 122)
   || (n =? 42) || (n =? 45) || (n =? 46) || (n =? 95))%N.

(** One code unit, percent-encoded through its UTF-8 bytes; a space
    becomes a plus sign. *)
Definition encode_unit (c : ascii) : list ascii :=
  let n := N_of_ascii c in
  if unreserved c then [c]
  else if (n =? 32)%N then ["+"%char]
  else if (n <? 128)%N then percent_byte n
  else percent_byte (192 + n / 64) ++ percent_byte (128 + n mod 64).

Definition encode (s : string) : string :=
  string_of_list_ascii (flat_map encode_unit (list_ascii_of_string s)).

(** The list of name-value pairs of a [URLSearchParams] object. *)
Abbreviation params := (list (string * string)).

(** [searchParams.set(name, value)]: the first pair named [name] takes
    the value and the other pairs of that name are removed; with no such
    pair, the pair is appended. *)
Fixpoint set (name value : string) (l : params) : params :=
  match l with
  | [] => [(name, value)]
  | (n, v) :: l' =>
      if String.eqb n name
      then (name, value) :: filter (fun p => name <> fst p) l'
      else (n, v) :: set name value l'
  end.

(** [searchParams.get(name)]: the value of the first pair named [name]. *)
Fixpoint get (name : string) (l : params) : option string :=
  match l with
  | [] => None
  | (n, v) :: l' => if String.eqb n name then Some v else get name l'
  end.

(** The serialized query: [name=value] pairs joined by [&]. *)
Fixpoint serialize (l : params) : string :=
  match l with
  | [] => ""
  | [(n, v)] => encode n +:+ "=" +:+ encode v
  | (n, v) :: l' => encode n +:+ "=" +:+ encode v +:+ "&" +:+ serialize l'
  end.

(** A [URL] object: what precedes the query, and the query's pairs. *)
Record URL : Type := mkURL { endpoint : string; searchParams : params }.

(** [new URL(s)] for an [s] without query. *)
Definition new (s : string) : URL := {| endpoint := s; searchParams := [] |}.

Definition searchParams_set (name value : string) (u : URL) : URL :=
  {| endpoint := endpoint u; searchParams := set name value (searchParams u) |}.

(** The serialized URL; an empty query leaves no question mark. *)
Definition href (u : URL) : string :=
  match searchParams u with
  | [] => endpoint u
  | l => endpoint u +:+ "?" +:+ serialize l
  end.

End Url.

Export Url (URL).

(** ** Values that cross the client's interface *)

(** An error object: its [name] and its [message]. *)
Record JsError : Type := mkError { name : string; message : string }.

(** [new Error(msg)]. *)
Definition Error (msg : string) : JsError := {| name := "Error"; message := msg |}.

(** A [TypeError] of the runtime. *)
Definition TypeError (msg : string) : JsError := {| name := "TypeError"; message := msg |}.

(** How a promise settles. *)
Inductive settled (A : Type) : Type :=
  | Resolved (v : A)
  | Rejected (e : JsError).
Arguments Resolved {A} v.
Arguments Rejected {A} e.

Record LatLon : Type := mkLatLon { lat : number; lon : number }.

Record SunriseResult : Type := mkSunriseResult {
  sunrise : string;
  sunset : string;
  solar_noon : string;
  day_length : number;
  civil_twilight_begin : string;
  civil_twilight_end : string;
  nautical_twilight_begin : string;
  nautical_twilight_end : string;
  astronomical_twilight_begin : string;
  astronomical_twilight_end : string
}.

Inductive ApiStatus : Type := OK | INVALID_REQUEST | INVALID_DATE | UNKNOWN_ERROR.

#[global] Instance ApiStatus_eq_dec : EqDecision ApiStatus.
Proof. solve_decision. Defined.

(** The string a status is on the wire and in a message. *)
Definition status_name (st : ApiStatus) : string :=
  match st with
  | OK => "OK"
  | INVALID_REQUEST => "INVALID_REQUEST"
  | INVALID_DATE => "INVALID_DATE"
  | UNKNOWN_ERROR => "UNKNOWN_ERROR"
  end.

Record SunriseResponse : Type := mkSunriseResponse {
  results : SunriseResult;
  status : ApiStatus
}.

(** The store: the one [URL] object of the module, [baseUrl]. In [get],
    [let apiUrl = baseUrl] gives that object a second name; every read and
    write through [apiUrl] is a read or write of this cell. *)
Record store : Type := mkStore { baseUrl : URL }.

(** The store once the module is loaded. *)
Definition module_store : store :=
  {| baseUrl := Url.new "https://api.sunrise-sunset.org/json" |}.

(** What a call does to the outside world. *)
Inductive effect : Type :=
  | Fetch (url : string)      (* [httpGetJson(apiUrl)] sends a request *)
  | Sleep (millis : Z).       (* [sleep(millis)] arms a timer *)

(** ** sunriseClient *)

Module sunriseClient.

Section Client.

Variable numberToString : number -> string.

(** *** httpGetJson *)

(** What Node reports on one request, in order of time: the response with
    its [statusCode] ([None]: undefined), a chunk of the body, the end of
    the body, an error of the request. *)
Inductive http_event : Type :=
  | Responded (statusCode : option number)
  | Data (chunk : string)
  | Ended
  | Failed (err : JsError).

(** Which handlers are attached. *)
Inductive phase : Type :=
  | Sent                        (* the callback of [https.get] has not run *)
  | Receiving (body : string)   (* ["data"] and ["end"] are attached; [body] so far *)
  | Dropped.                    (* the callback returned at line 65, attaching nothing *)

(** Line 64: [!res.statusCode || res.statusCode < 200 || res.statusCode >= 300]. *)
Definition bad_status (statusCode : option number) : bool :=
  match statusCode with
  | None => true
  | Some code =>
      Number.falsy code
      || Number.ltb code (Number.of_Z 200)
      || Number.geb code (Number.of_Z 300)
  end.

(** Line 65: [new Error('statusCode=' + res.statusCode)]. *)
Definition status_error (statusCode : option number) : JsError :=
  Error ("statusCode=" +:+ match statusCode with
                           | None => "undefined"
                           | Some code => numberToString code
                           end).

Section Http.

(** The type the caller expects, and [JSON.parse] read at that type. *)
Variable T : Type.
Variable JSON_parse : string -> JsError + T.

(** One call of [httpGetJson]: the handlers attached and the state of the
    promise it returned ([None]: pending). *)
Record request : Type := mkRequest {
  stage : phase;
  result : option (settled T)
}.

(** [resolve] and [reject]: the first call settles the promise, later
    calls do nothing. *)
Definition settle (c : settled T) (q : request) : request :=
  match result q with
  | Some _ => q
  | None => {| stage := stage q; result := Some c |}
  end.

(** Lines 77 to 81. *)
Definition parsed (body : string) : settled T :=
  match JSON_parse body with
  | inr value => Resolved value
  | inl e => Rejected e
  end.

(** The handlers of lines 62 to 88; an event with no handler attached
    changes nothing. *)
Definition on_event (q : request) (ev : http_event) : request :=
  match ev, stage q with
  | Responded statusCode, Sent =>
      if bad_status statusCode
      then settle (Rejected (status_error statusCode)) {| stage := Dropped; result := result q |}
      else {| stage := Receiving ""; result := result q |}
  | Data chunk, Receiving body => {| stage := Receiving (body +:+ chunk); result := result q |}
  | Ended, Receiving body => settle (parsed body) q
  | Failed err, _ => settle (Rejected err) q
  | _, _ => q
  end.

(** [httpGetJson(url)] against the events of its request: how the promise
    stands after them. *)
Definition httpGetJson (events : list http_event) : option (settled T) :=
  result (fold_left on_event events {| stage := Sent; result := None |}).

End Http.

(** Lines 99 to 105: the three [searchParams.set] calls on [apiUrl],
    that is, on [baseUrl]. *)
Definition prepare (location : LatLon) (s : store) : store :=
  let apiUrl := baseUrl s in
  let apiUrl := Url.searchParams_set "lat" (Number.toFixed numberToString 7 (lat location)) apiUrl in
  let apiUrl := Url.searchParams_set "lng" (Number.toFixed numberToString 7 (lon location)) apiUrl in
  let apiUrl := Url.searchParams_set "formatted" "0" apiUrl in
  {| baseUrl := apiUrl |}.

(** The error of line 124. *)
Definition api_error (resp : SunriseResponse) : JsError :=
  Error ("Sunrise API status: " +:+ status_name (status resp)
         +:+ "  Day length: " +:+ numberToString (day_length (results resp))).

(** What the loop body does with a response. *)
Inductive verdict : Type :=
  | Success (r : SunriseResult)   (* [return resp.results] *)
  | Retry                         (* [retries++; await sleep(10); continue] *)
  | Failure (e : JsError).        (* [throw new Error(...)] *)

(** Lines 116 to 126, with [retries] as it is before the increment. *)
Definition examine (retries : nat) (resp : SunriseResponse) : verdict :=
  if bool_decide (status resp = OK) && Number.neq0 (day_length (results resp))
  then Success (results resp)
  else
    if (retries <? 5)%nat
       && (bool_decide (status resp = OK) || bool_decide (status resp = UNKNOWN_ERROR))
    then Retry
    else Failure (api_error resp).

(** One call seen from outside: how the promise it returned settled,
    the value of [retries] then, and the requests and timers the call
    issued, in order. *)
Record run : Type := mkRun {
  outcome : option (settled SunriseResult);   (* [None]: still suspended *)
  final_retries : nat;
  effects : list effect
}.

(** The [while(true)] loop of lines 113 to 127 against the answers
    [api] of the successive requests, for a store [s] that no other
    caller touches meanwhile. Each turn consumes one answer; with no
    answer left the call stays suspended at its [await]. *)
Fixpoint loop (s : store) (retries : nat) (api : list (settled SunriseResponse)) : run :=
  let request := Fetch (Url.href (baseUrl s)) in
  match api with
  | [] => mkRun None retries [request]
  | Rejected e :: _ => mkRun (Some (Rejected e)) retries [request]
  | Resolved resp :: api' =>
      match examine retries resp with
      | Success r => mkRun (Some (Resolved r)) retries [request]
      | Retry =>
          let rest := loop s (S retries) api' in
          mkRun (outcome rest) (final_retries rest) (request :: Sleep 10 :: effects rest)
      | Failure e => mkRun (Some (Rejected e)) retries [request]
      end
  end.

(** [sunriseClient.get(location)] alone on the store [s]. *)
Definition get (location : LatLon) (s : store) (api : list (settled SunriseResponse)) : run :=
  loop (prepare location s) 0 api.

(** *** The call as a resumable task *)

(** Where a call is suspended, or how it ended. *)
Inductive task : Type :=
  | AwaitFetch (retries : nat)    (* at [await httpGetJson(apiUrl)], line 114 *)
  | AwaitSleep (retries : nat)    (* at [await sleep(10)], line 121 *)
  | Done (c : settled SunriseResult).

(** What resumes a suspended call. *)
Inductive wakeup : Type :=
  | Response (answer : settled SunriseResponse)
  | Timer.

(** The call up to its first [await]. *)
Definition start (location : LatLon) (s : store) : store * task * list effect :=
  let s := prepare location s in
  (s, AwaitFetch 0, [Fetch (Url.href (baseUrl s))]).

(** The call from one [await] to the next, on the store as it is at
    that moment; [None] when [w] is not what the call waits for. *)
Definition resume (s : store) (t : task) (w : wakeup) : option (task * list effect) :=
  match t, w with
  | AwaitFetch retries, Response (Rejected e) => Some (Done (Rejected e), [])
  | AwaitFetch retries, Response (Resolved resp) =>
      match examine retries resp with
      | Success r => Some (Done (Resolved r), [])
      | Retry => Some (AwaitSleep (S retries), [Sleep 10])
      | Failure e => Some (Done (Rejected e), [])
      end
  | AwaitSleep retries, Timer => Some (AwaitFetch retries, [Fetch (Url.href (baseUrl s))])
  | _, _ => None
  end.

End Client.

Arguments mkRequest {T} stage result.
Arguments stage {T} r.
Arguments result {T} r.

End sunriseClient.

Export sunriseClient (task, wakeup).

(** ** index *)

Module index.

Import sunriseClient.

(** The callback of line 24, [(a, b) => a.sunrise < b.sunrise ? a : b]:
    [<] on two strings compares them code unit by code unit. *)
Definition earlier (a b : SunriseResult) : SunriseResult :=
  if String.ltb (sunrise a) (sunrise b) then a else b.

(** [sunrises.reduce(earlier)]: without an initial value, [reduce] starts
    from the first element and folds the others in from the left; on an
    empty array it throws a [TypeError]. *)
Definition findEarliestSunrise (sunrises : list SunriseResult) : JsError + SunriseResult :=
  match sunrises with
  | [] => inl (TypeError "Reduce of empty array with no initial value")
  | first :: rest => inr (fold_left earlier rest first)
  end.

(** A value written to the console. *)
Inductive printed : Type :=
  | PrintedResult (r : SunriseResult)
  | PrintedNumber (n : number).

(** What happens while the program runs. *)
Inductive event : Type :=
  | Did (i : nat) (e : effect)                    (* the call for [locations[i]] asks for something *)
  | Settled (i : nat) (c : settled SunriseResult) (* the promise of that call settles *)
  | Stdout (v : printed)                          (* [console.log] *)
  | Stderr (e : JsError).                         (* [console.error] *)

(** The two handlers of lines 10 to 18, run on the settled [Promise.all]. *)
Definition handlers (batch : settled (list SunriseResult)) : list event :=
  match batch with
  | Resolved sunrises =>
      match findEarliestSunrise sunrises with
      | inr earliest => [Stdout (PrintedResult earliest); Stdout (PrintedNumber (day_length earliest))]
      | inl err => [Stderr err]
      end
  | Rejected err => [Stderr err]
  end.

(** The bookkeeping of [Promise.all]: the values collected so far (by
    index), the number of promises not yet fulfilled, and the state of
    the promise it returned ([None]: pending). *)
Record all_state : Type := mkAll {
  values : list (option SunriseResult);
  remaining : nat;
  promise : option (settled (list SunriseResult))
}.

Definition all_init (n : nat) : all_state :=
  {| values := replicate n None;
     remaining := n;
     promise := if (n =? 0)%nat then Some (Resolved []) else None |}.

(** The [i]-th promise is fulfilled with [x]: store the value, count
    down, and fulfil with the values at zero. A settled promise keeps
    its state. *)
Definition all_resolve_element (i : nat) (x : SunriseResult) (a : all_state) : all_state :=
  let values' := <[i := Some x]> (values a) in
  let remaining' := (remaining a - 1)%nat in
  {| values := values';
     remaining := remaining';
     promise := match promise a with
                | Some st => Some st
                | None => if (remaining' =? 0)%nat then Resolved <$> mapM id values' else None
                end |}.

(** One of the promises is rejected with [e]: reject, unless settled. *)
Definition all_reject (e : JsError) (a : all_state) : all_state :=
  {| values := values a;
     remaining := remaining a;
     promise := match promise a with
                | Some st => Some st
                | None => Some (Rejected e)
                end |}.

(** The running program. *)
Record program : Type := mkProgram {
  shared : store;           (* the module state of sunriseClient *)
  tasks : list task;        (* [locations.map(loc => sunriseClient.get(loc))] *)
  all : all_state;          (* [Promise.all(...)] *)
  trace : list event
}.

Section Program.

Variable numberToString : number -> string.

(** [locations.map(loc => sunriseClient.get(loc))]: each call runs to
    its first [await] before the next one starts. *)
Fixpoint spawn (i : nat) (locations : list LatLon) (s : store)
  : store * list task * list event :=
  match locations with
  | [] => (s, [], [])
  | loc :: rest =>
      let '(s, t, effs) := start numberToString loc s in
      let '(s', ts, evs) := spawn (S i) rest s in
      (s', t :: ts, (Did i <$> effs) ++ evs)
  end.

(** The program when the synchronous part of [index.ts] has run. *)
Definition main (locations : list LatLon) : program :=
  let '(s, ts, evs) := spawn 0 locations module_store in
  let a := all_init (length ts) in
  {| shared := s; tasks := ts; all := a;
     trace := evs ++ from_option handlers [] (promise a) |}.

(** The promise of call [i] settles with [c]: [Promise.all] reacts, and
    the handlers run if that settles the batch. *)
Definition notify (i : nat) (c : settled SunriseResult) (p : program) : program :=
  let a := match c with
           | Resolved x => all_resolve_element i x (all p)
           | Rejected e => all_reject e (all p)
           end in
  {| shared := shared p; tasks := tasks p; all := a;
     trace := trace p ++ Settled i c ::
                match promise (all p) with
                | None => from_option handlers [] (promise a)
                | Some _ => []
                end |}.

(** Call [i] is resumed by [w]; [None] when it does not wait for [w]. *)
Definition step (i : nat) (w : wakeup) (p : program) : option program :=
  t ← tasks p !! i;
  '(t', effs) ← resume numberToString (shared p) t w;
  let p' := {| shared := shared p; tasks := <[i := t']> (tasks p); all := all p;
               trace := trace p ++ (Did i <$> effs) |} in
  Some match t' with
       | Done c => notify i c p'
       | _ => p'
       end.

(** A schedule: which call is resumed by what, in order of time. *)
Fixpoint exec (schedule : list (nat * wakeup)) (p : program) : option program :=
  match schedule with
  | [] => Some p
  | (i, w) :: schedule' => p' ← step i w p; exec schedule' p'
  end.

End Program.

(** The error of the first call that failed, in order of time. *)
Fixpoint first_rejection (tr : list event) : option JsError :=
  match tr with
  | [] => None
  | Settled _ (Rejected e) :: _ => Some e
  | _ :: tr' => first_rejection tr'
  end.

(** What the program wrote to the console. *)
Definition is_output (ev : event) : bool :=
  match ev with
  | Stdout _ | Stderr _ => true
  | _ => false
  end.

Definition is_stdout (ev : event) : bool :=
  match ev with
  | Stdout _ => true
  | _ => false
  end.

End index.

(** * Properties *)

Import sunriseClient.

(** ** Measures of what a call did *)

(** The number of requests among the effects. *)
Fixpoint requests (effs : list effect) : nat :=
  match effs with
  | [] => 0
  | Fetch _ :: effs' => S (requests effs')
  | Sleep _ :: effs' => requests effs'
  end.

(** The number of timers among the effects. *)
Fixpoint delays (effs : list effect) : nat :=
  match effs with
  | [] => 0
  | Fetch _ :: effs' => delays effs'
  | Sleep _ :: effs' => S (delays effs')
  end.

(** The time spent waiting for timers, at least: the sum of their delays. *)
Fixpoint slept (effs : list effect) : Z :=
  match effs with
  | [] => 0%Z
  | Fetch _ :: effs' => slept effs'
  | Sleep millis :: effs' => (millis + slept effs')%Z
  end.

(** The response is the one the loop retries on: [OK] with a zero day
    length, or [UNKNOWN_ERROR]. *)
Definition transient (resp : SunriseResponse) : bool :=
  bool_decide (status resp = OK) && negb (Number.neq0 (day_length (results resp)))
  || bool_decide (status resp = UNKNOWN_ERROR).

(** The response is [OK] with a zero day length. *)
Definition zero_day (resp : SunriseResponse) : bool :=
  bool_decide (status resp = OK) && negb (Number.neq0 (day_length (results resp))).

(** The response is [OK] with a day length that is not zero. *)
Definition valid (resp : SunriseResponse) : bool :=
  bool_decide (status resp = OK) && Number.neq0 (day_length (results resp)).

(** The response is [INVALID_REQUEST] or [INVALID_DATE]. *)
Definition fatal (resp : SunriseResponse) : bool :=
  bool_decide (status resp = INVALID_REQUEST) || bool_decide (status resp = INVALID_DATE).

(** The answer is a response, and the response satisfies [P]. *)
Definition answers (P : SunriseResponse -> bool) (a : settled SunriseResponse) : bool :=
  match a with
  | Resolved resp => P resp
  | Rejected _ => false
  end.

(** ** What the reducer is expected to return *)

(** [r] is in [l] at index [i] and no record of [l] has a smaller sunrise. *)
Definition minimum_at (l : list SunriseResult) (i : nat) (r : SunriseResult) : Prop :=
  l !! i = Some r
  /\ forall j x, l !! j = Some x -> String.ltb (sunrise x) (sunrise r) = false.

(** The tie-break in the specification's words: among the records with the
    smallest sunrise, the one that occurs first. *)
Definition first_minimum (l : list SunriseResult) (r : SunriseResult) : Prop :=
  exists i, minimum_at l i r
            /\ forall j x, l !! j = Some x -> j < i -> sunrise x <> sunrise r.

(** The tie-break of the fold: among the records with the smallest
    sunrise, the one that occurs last, so every later record has a
    strictly greater sunrise. *)
Definition last_minimum (l : list SunriseResult) (r : SunriseResult) : Prop :=
  exists i, minimum_at l i r
            /\ forall j x, l !! j = Some x -> i < j -> String.ltb (sunrise r) (sunrise x) = true.

(** ** Stores the client can be called on *)

(** The store after [get] was called for each of [previous] in turn. *)
Definition visited (numberToString : number -> string) (previous : list LatLon) : store :=
fold_left (fun s location => prepare numberToString location s) previous module_store.

(** The URL a request for [location] is meant to go to. *)
Definition request_url (numberToString : number -> string) (location : LatLon) : string :=
"https://api.sunrise-sunset.org/json?lat="
  +:+ Url.encode (Number.toFixed numberToString 7 (lat location))
  +:+ "&lng=" +:+ Url.encode (Number.toFixed numberToString 7 (lon location))
  +:+ "&formatted=0".


(** The query of [baseUrl] is empty or has the three pairs of a call. *)
Definition shaped (s : store) : Prop :=
Url.endpoint (baseUrl s) = "https://api.sunrise-sunset.org/json"
/\ (Url.searchParams (baseUrl s) = []
    \/ exists a b, Url.searchParams (baseUrl s) = [("lat", a); ("lng", b); ("formatted", "0")]).


(** ** What holds of the running program *)

(** The record a call returned, if it has returned. *)
Definition fulfilled (t : task) : option SunriseResult :=
match t with
| Done (Resolved r) => Some r
| _ => None
end.

(** The call has failed. *)
Definition failed (t : task) : bool :=
match t with
| Done (Rejected _) => true
| _ => false
end.

(** One for a call that has not returned. *)
Definition waiting (t : task) : nat :=
match fulfilled t with
| Some _ => 0
| None => 1
end.

(** The number of calls that have not returned. *)
Fixpoint unfulfilled (ts : list task) : nat :=
match ts with
| [] => 0
| t :: ts' => waiting t + unfulfilled ts'
end.

(** The state of the batch promise, read off the calls and the trace:
    rejected with the first error raised, if any; else fulfilled with the
    records once every call has returned; else pending. *)
Definition batch_promise (ts : list task) (tr : list index.event)
  : option (settled (list SunriseResult)) :=
match index.first_rejection tr with
| Some e => Some (Rejected e)
| None => if unfulfilled ts =? 0 then Resolved <$> mapM id (fulfilled <$> ts) else None
end.

(** The bookkeeping of [Promise.all] agrees with the calls, and the
    console shows what the handlers wrote when the batch settled. *)
Record invariant (p : index.program) : Prop := mkInvariant {
  inv_values : index.values (index.all p) = fulfilled <$> index.tasks p;
  inv_remaining : index.remaining (index.all p) = unfulfilled (index.tasks p);
  inv_promise : index.promise (index.all p) = batch_promise (index.tasks p) (index.trace p);
  inv_failed : match index.first_rejection (index.trace p) with
               | Some e => exists j, index.tasks p !! j = Some (Done (Rejected e))
               | None => Forall (fun t => failed t = false) (index.tasks p)
               end;
  inv_outputs : List.filter index.is_output (index.trace p)
                = from_option index.handlers [] (index.promise (index.all p))
}.
(** ** Concrete inputs *)

Module Examples.

(** [Number::toString] on the integers [Number.of_Z z] below 10^21 in
    magnitude, the only numbers the examples convert to strings. *)
Definition toString_integer (x : number) : string :=
  match x with
  | S754_zero _ => "0"
  | S754_finite s m 0 =>
      (if s then "-" else "") +:+ string_of_list_ascii (Number.decimal_digits (Z.pos m))
  | _ => ""
  end.

(** The binary64 number nearest to 45.1234567. *)
Definition lat_45_1234567 : number := S754_finite false 6350561961868397 (-47).

(** The binary64 number nearest to -93.7654321. *)
Definition lon_93_7654321 : number := S754_finite true 6598155704153024 (-46).

(** [{lat: 45.1234567, lon: -93.7654321}] *)
Definition here : LatLon := {| lat := lat_45_1234567; lon := lon_93_7654321 |}.

(** [{lat: 12, lon: -0.5}] *)
Definition there : LatLon := {| lat := Number.of_Z 12; lon := S754_finite true 1 (-1) |}.

(** A record with the given sunrise and day length. *)
Definition record (sunrise : string) (seconds : Z) : SunriseResult :=
  {| sunrise := sunrise;
     sunset := "2024-01-01T17:00:00+00:00";
     solar_noon := "2024-01-01T12:00:00+00:00";
     day_length := Number.of_Z seconds;
     civil_twilight_begin := "2024-01-01T05:00:00+00:00";
     civil_twilight_end := "2024-01-01T17:30:00+00:00";
     nautical_twilight_begin := "2024-01-01T04:30:00+00:00";
     nautical_twilight_end := "2024-01-01T18:00:00+00:00";
     astronomical_twilight_begin := "2024-01-01T04:00:00+00:00";
     astronomical_twilight_end := "2024-01-01T18:30:00+00:00" |}.

(** [OK] with a zero day length: the response the loop retries on. *)
Definition stale : SunriseResponse :=
  {| results := record "1970-01-01T00:00:01+00:00" 0; status := OK |}.

Definition good : SunriseResponse :=
  {| results := record "2024-01-01T06:00:00+00:00" 39600; status := OK |}.

Definition better : SunriseResponse :=
  {| results := record "2024-01-01T05:30:00+00:00" 41400; status := OK |}.

Definition invalid : SunriseResponse :=
  {| results := record "" 0; status := INVALID_REQUEST |}.

(** Two locations; the second call is answered first, the first call
    after one retry. *)
Definition out_of_order : list (nat * wakeup) :=
  [(1, Response (Resolved better)); (0, Response (Resolved stale)); (0, Timer);
   (0, Response (Resolved good))].

(** Two locations; the second call fails while the first is in its retry
    delay, and the first then succeeds. *)
Definition one_fails : list (nat * wakeup) :=
  [(0, Response (Resolved stale)); (1, Response (Resolved invalid)); (0, Timer);
   (0, Response (Resolved good))].

(** The program on [here] and [there] after a schedule (as started, if the
    schedule cannot run). *)
Definition after (schedule : list (nat * wakeup)) : index.program :=
  default (index.main toString_integer [here; there])
    (index.exec toString_integer schedule (index.main toString_integer [here; there])).

End Examples.

(** ** More measures *)

(** The chunks of a body, put together in order. *)
Definition joined (chunks : list string) : string :=
fold_right String.append "" chunks.

(** The answers delivered to call [i] by a schedule, in order. *)
Fixpoint answers_to (i : nat) (schedule : list (nat * wakeup)) : list (settled SunriseResponse) :=
match schedule with
| [] => []
| (j, Response answer) :: schedule' =>
    if decide (j = i) then answer :: answers_to i schedule' else answers_to i schedule'
| (_, Timer) :: schedule' => answers_to i schedule'
end.

(** The most wakeups a call can still take: a response and a timer per
    retry left, and the last response. *)
Definition budget (t : task) : nat :=
match t with
| AwaitFetch retries => 1 + 2 * (5 - retries)
| AwaitSleep retries => 2 + 2 * (5 - retries)
| Done _ => 0
end.

(** The most requests a call can still send. *)
Definition credit (t : task) : nat :=
match t with
| AwaitFetch retries => 5 - retries
| AwaitSleep retries => 1 + (5 - retries)
| Done _ => 0
end.

(** [f] summed over the calls. *)
Fixpoint total (f : task -> nat) (ts : list task) : nat :=
match ts with
| [] => 0
| t :: ts' => f t + total f ts'
end.

(** The number of requests in a trace. *)
Fixpoint sent (tr : list index.event) : nat :=
match tr with
| [] => 0
| index.Did _ (Fetch _) :: tr' => S (sent tr')
| _ :: tr' => sent tr'
end.

(** The state of call [t] is the one the run [r] of the loop shows: settled
    the same way, or suspended with the same value of [retries]. *)
Definition agrees (t : task) (r : run) : Prop :=
match t with
| Done c => outcome r = Some c
| AwaitFetch retries | AwaitSleep retries => outcome r = None /\ final_retries r = retries
end.

(** ** Reading fixed-point notation *)

(** The digit a character stands for. *)
Definition digit_value (c : ascii) : Z := (Z.of_nat (nat_of_ascii c) - 48)%Z.

(** The whole number a list of digits writes in base ten. *)
Definition digits_value (l : list ascii) : Z :=
fold_left (fun acc c => (10 * acc + digit_value c)%Z) l 0%Z.

(** A number in fixed-point notation read back: whether it has a minus
    sign, and its digits read as one whole number with the point left out
    (the magnitude times ten to the number of digits after the point). *)
Definition read_fixed (s : string) : option (bool * Z) :=
let l := list_ascii_of_string s in
let '(minus, l) := match l with
                   | c :: l' => if Ascii.eqb c "-" then (true, l') else (false, l)
                   | [] => (false, l)
                   end in
match Number.split_point l with
| Some (a, b) => Some (minus, digits_value (a ++ b))
| None => None
end.

(** [text] reads back as the number [x] rounded to [f] digits after the
    point: the sign of [x], and a whole number [n] with [n / 10^f] within
    half a unit of the last digit of the magnitude [m * 2^e] of [x]
    (written without fractions, with [u / d = 2^e]). *)
Definition within_half_unit (f : nat) (x : number) (text : string) : Prop :=
match x with
| S754_zero _ => read_fixed text = Some (false, 0%Z)
| S754_finite sign m e =>
    exists n,
      read_fixed text = Some (sign, n)
      /\ let d := (2 ^ Z.max 0 (- e))%Z in
         let u := (2 ^ Z.max 0 e)%Z in
         (- d <= 2 * (Z.pos m * u * 10 ^ Z.of_nat f - n * d) < d)%Z
| _ => True
end.

(** ** More concrete inputs *)

Module Bodies.

(** A stand-in for [JSON.parse] that knows two bodies. *)
Definition parse (body : string) : JsError + SunriseResponse :=
  if String.eqb body "good" then inr Examples.good
  else if String.eqb body "stale" then inr Examples.stale
  else inl {| name := "SyntaxError"; message := "Unexpected token" |}.

(** The program on [here] and [there] after the second call has failed
    while the first is in its retry delay. *)
Definition rejected : index.program :=
  Examples.after [(0, Response (Resolved Examples.stale));
                  (1, Response (Resolved Examples.invalid))].

(** What the first call still does then. *)
Definition late : list (nat * wakeup) :=
  [(0, Timer); (0, Response (Resolved Examples.good))].

End Bodies.

Section ClientProperties.

Variable numberToString : number -> string.

Abbreviation examine := (examine numberToString).
Abbreviation api_error := (api_error numberToString).
Abbreviation loop := (loop numberToString).
Abbreviation get := (get numberToString).

Lemma zero_day_transient resp : zero_day resp = true -> transient resp = true.
Proof. unfold zero_day, transient. intros ->. reflexivity. Qed.

Lemma examine_valid retries resp :
  valid resp = true -> examine retries resp = Success (results resp).
Proof. unfold valid, sunriseClient.examine. intros ->. reflexivity. Qed.

Lemma examine_transient retries resp :
  transient resp = true ->
  examine retries resp = if (retries <? 5)%nat then Retry else Failure (api_error resp).
Proof.
  unfold transient, sunriseClient.examine.
  destruct resp as [res st]; simpl.
  destruct st, (Number.neq0 (day_length res)); simpl; try discriminate;
    intros _; rewrite ?andb_true_r; reflexivity.
Qed.

Lemma examine_fatal retries resp :
  fatal resp = true -> examine retries resp = Failure (api_error resp).
Proof.
  unfold fatal, sunriseClient.examine.
  destruct resp as [res st]; simpl.
  destruct st; simpl; try discriminate; intros _; rewrite andb_false_r; reflexivity.
Qed.

(** One turn of the loop that ends in a retry. *)
Lemma loop_retry s retries resp api :
  examine retries resp = Retry ->
  loop s retries (Resolved resp :: api)
  = let rest := loop s (S retries) api in
    mkRun (outcome rest) (final_retries rest)
          (Fetch (Url.href (baseUrl s)) :: Sleep 10 :: effects rest).
Proof. intros H. simpl. rewrite H. reflexivity. Qed.

(** The loop never sends more than [6 - retries] requests, and it has
    settled once that many answers are in. *)
Lemma loop_bounded s api :
  forall retries,
    requests (effects (loop s retries api)) <= Nat.max 1 (6 - retries)
    /\ (Nat.max 1 (6 - retries) <= length api ->
        is_Some (outcome (loop s retries api))).
Proof.
  induction api as [|a api IH]; intros retries.
  - simpl. split; lia.
  - destruct a as [resp|e]; [|simpl; split; [lia | eauto]].
    simpl. unfold sunriseClient.examine.
    destruct (bool_decide (status resp = OK) && Number.neq0 (day_length (results resp)));
      [simpl; split; [lia | eauto]|].
    destruct (retries <? 5)%nat eqn:Hlt; simpl; [|split; [lia | eauto]].
    destruct (bool_decide (status resp = OK) || bool_decide (status resp = UNKNOWN_ERROR));
      simpl; [|split; [lia | eauto]].
    apply Nat.ltb_lt in Hlt.
    destruct (IH (S retries)) as [Hreq Hdone]. split; [lia|].
    intros Hlen. apply Hdone. lia.
Qed.

(** Against answers that are all transient, from [retries <= 5] on. *)
Lemma loop_transient s api :
  forall retries,
    (retries <= 5)%nat ->
    (6 - retries <= length api)%nat ->
    Forall (fun a => answers transient a = true) api ->
    exists resp,
      api !! (5 - retries)%nat = Some (Resolved resp)
      /\ loop s retries api
         = mkRun (Some (Rejected (api_error resp))) 5
             (concat (replicate (5 - retries) [Fetch (Url.href (baseUrl s)); Sleep 10])
              ++ [Fetch (Url.href (baseUrl s))]).
Proof.
  induction api as [|a api IH]; intros retries Hle Hlen Hall.
  - simpl in Hlen. lia.
  - apply Forall_cons in Hall as [Ha Hall].
    destruct a as [resp|e]; [|discriminate]. simpl in Ha, Hlen.
    destruct (decide (retries = 5)) as [->|Hne].
    + exists resp. split; [reflexivity|].
      simpl. rewrite examine_transient by assumption. reflexivity.
    + destruct (IH (S retries)) as (resp' & Hlook & Hrun); [lia | lia | assumption |].
      exists resp'. split.
      * replace (5 - retries)%nat with (S (5 - S retries)) by lia. exact Hlook.
      * rewrite loop_retry.
        2:{ rewrite examine_transient by assumption.
            destruct (Nat.ltb_spec retries 5); [reflexivity | lia]. }
        cbv zeta. rewrite Hrun. simpl.
        replace (5 - retries)%nat with (S (5 - S retries)) by lia. reflexivity.
Qed.

(** Against [k] transient answers and then a valid one. *)
Lemma loop_recovers s resp rest :
  forall bad retries,
    (retries + length bad <= 5)%nat ->
    Forall (fun a => answers transient a = true) bad ->
    valid resp = true ->
    loop s retries (bad ++ Resolved resp :: rest)
    = mkRun (Some (Resolved (results resp))) (retries + length bad)
        (concat (replicate (length bad) [Fetch (Url.href (baseUrl s)); Sleep 10])
         ++ [Fetch (Url.href (baseUrl s))]).
Proof.
  induction bad as [|a bad IH]; intros retries Hle Hall Hvalid.
  - simpl. rewrite examine_valid by assumption. rewrite Nat.add_0_r. reflexivity.
  - apply Forall_cons in Hall as [Ha Hall].
    destruct a as [resp'|e]; [|discriminate]. simpl in Ha, Hle.
    change ((Resolved resp' :: bad) ++ Resolved resp :: rest)
      with (Resolved resp' :: (bad ++ Resolved resp :: rest)).
    rewrite loop_retry.
    2:{ rewrite examine_transient by assumption.
        destruct (Nat.ltb_spec retries 5); [reflexivity | lia]. }
    cbv zeta. rewrite IH by (assumption || lia). simpl.
    f_equal. lia.
Qed.

Lemma requests_turns u k :
  requests (concat (replicate k [Fetch u; Sleep 10]) ++ [Fetch u]) = S k.
Proof. induction k as [|k IH]; simpl; [reflexivity | rewrite IH; reflexivity]. Qed.

Lemma delays_turns u k :
  delays (concat (replicate k [Fetch u; Sleep 10]) ++ [Fetch u]) = k.
Proof. induction k as [|k IH]; simpl; [reflexivity | rewrite IH; reflexivity]. Qed.

Lemma slept_turns u k :
  slept (concat (replicate k [Fetch u; Sleep 10]) ++ [Fetch u]) = (10 * Z.of_nat k)%Z.
Proof. induction k as [|k IH]; [reflexivity|]. cbn [replicate concat app slept]. rewrite IH. lia. Qed.

(** One turn of the loop is the call resumed by the answer and, on a
    retry, by the timer: the loop and the resumable task are the same
    code. *)
Lemma loop_turn s retries a api :
  let request := Fetch (Url.href (baseUrl s)) in
  match resume numberToString s (AwaitFetch retries) (Response a) with
  | Some (Done c, effs) =>
      loop s retries (a :: api) = mkRun (Some c) retries (request :: effs)
  | Some (AwaitSleep retries', effs) =>
      resume numberToString s (AwaitSleep retries') Timer = Some (AwaitFetch retries', [request])
      /\ loop s retries (a :: api)
         = let rest := loop s retries' api in
           mkRun (outcome rest) (final_retries rest) (request :: effs ++ effects rest)
  | _ => False
  end.
Proof.
  destruct a as [resp|e]; simpl; [|reflexivity].
  destruct (examine retries resp); simpl; auto.
Qed.

(** The store decides where the requests go and nothing else. *)
Lemma loop_store s s' api :
  forall retries,
    outcome (loop s retries api) = outcome (loop s' retries api)
    /\ final_retries (loop s retries api) = final_retries (loop s' retries api)
    /\ requests (effects (loop s retries api)) = requests (effects (loop s' retries api))
    /\ delays (effects (loop s retries api)) = delays (effects (loop s' retries api))
    /\ slept (effects (loop s retries api)) = slept (effects (loop s' retries api)).
Proof.
  induction api as [|[resp|e] api IH]; intros retries; simpl; auto.
  destruct (examine retries resp); simpl; auto.
  destruct (IH (S retries)) as (-> & -> & -> & -> & ->). auto.
Qed.

End ClientProperties.

Section ClientClaims.

Variable numberToString : number -> string.

Abbreviation api_error := (api_error numberToString).
Abbreviation loop := (loop numberToString).
Abbreviation get := (get numberToString).

(** C1. Once six answers are in, a call of [get] has settled and has
    sent at most six requests, whatever the answers are. When the
    answers are all transient ([OK] with a zero day length, or
    [UNKNOWN_ERROR]), the call sends exactly six requests (the first and
    five retries, with [retries] at 5 in the end), arms five timers, and
    fails with the error built from the sixth response: the failure of
    a used-up retry budget. Answers beyond the sixth are never asked
    for. *)
Theorem get_exhausts_retries (location : LatLon) (s : store)
    (api : list (settled SunriseResponse)) :
  6 <= length api ->
  (is_Some (outcome (get location s api))
   /\ requests (effects (get location s api)) <= 6)
  /\ (Forall (fun a => answers transient a = true) api ->
      exists resp,
        api !! 5 = Some (Resolved resp)
        /\ outcome (get location s api) = Some (Rejected (api_error resp))
        /\ final_retries (get location s api) = 5
        /\ requests (effects (get location s api)) = 6
        /\ delays (effects (get location s api)) = 5).
Proof.
  intros Hlen. unfold sunriseClient.get. split.
  - destruct (loop_bounded numberToString (prepare numberToString location s) api 0)
      as [Hreq Hdone].
    split; [apply Hdone; lia | lia].
  - intros Hall.
    destruct (loop_transient numberToString (prepare numberToString location s) api 0)
      as (resp & Hlook & Hrun); [lia | lia | assumption |].
    exists resp. rewrite Hrun. cbn [outcome final_retries effects].
    rewrite requests_turns, delays_turns. auto.
Qed.

(** C2. On a response with status [INVALID_REQUEST] or [INVALID_DATE] the
    loop fails at once, whatever the value of [retries]: no timer, no
    further request. A call whose first answer is such a response fails
    with [retries] at 0 after its one request. The error is the one of
    line 124; its message spells out the status and the day length of
    that response. *)
Theorem get_fatal_status (location : LatLon) (s : store) (resp : SunriseResponse)
    (api : list (settled SunriseResponse)) :
  fatal resp = true ->
  (forall retries,
      loop s retries (Resolved resp :: api)
      = mkRun (Some (Rejected (api_error resp))) retries [Fetch (Url.href (baseUrl s))])
  /\ outcome (get location s (Resolved resp :: api)) = Some (Rejected (api_error resp))
  /\ final_retries (get location s (Resolved resp :: api)) = 0
  /\ requests (effects (get location s (Resolved resp :: api))) = 1
  /\ delays (effects (get location s (Resolved resp :: api))) = 0
  /\ slept (effects (get location s (Resolved resp :: api))) = 0%Z
  /\ api_error resp
     = Error ("Sunrise API status: " +:+ status_name (status resp)
              +:+ "  Day length: " +:+ numberToString (day_length (results resp))).
Proof.
  intros Hfatal.
  assert (Hloop : forall s' retries,
             loop s' retries (Resolved resp :: api)
             = mkRun (Some (Rejected (api_error resp))) retries [Fetch (Url.href (baseUrl s'))]).
  { intros s' retries. simpl. rewrite examine_fatal by assumption. reflexivity. }
  split; [apply Hloop|].
  unfold sunriseClient.get. rewrite Hloop. simpl. auto 10.
Qed.

(** C3. For [k < 5]: when the first [k] answers are [OK] with a zero day
    length and the next is [OK] with a day length that is not zero,
    [get] returns the record of that response, with [retries] at [k],
    after [k + 1] requests and [k] timers of 10 milliseconds each, so
    after at least [10 * k] milliseconds of waiting. For [k = 0] that is
    one request and no timer. *)
Theorem get_recovers (location : LatLon) (s : store) (k : nat)
    (bad : list (settled SunriseResponse)) (resp : SunriseResponse)
    (rest : list (settled SunriseResponse)) :
  k < 5 ->
  length bad = k ->
  Forall (fun a => answers zero_day a = true) bad ->
  valid resp = true ->
  outcome (get location s (bad ++ Resolved resp :: rest)) = Some (Resolved (results resp))
  /\ final_retries (get location s (bad ++ Resolved resp :: rest)) = k
  /\ requests (effects (get location s (bad ++ Resolved resp :: rest))) = S k
  /\ delays (effects (get location s (bad ++ Resolved resp :: rest))) = k
  /\ slept (effects (get location s (bad ++ Resolved resp :: rest))) = (10 * Z.of_nat k)%Z
  /\ Forall (fun eff => match eff with Sleep millis => millis = 10%Z | Fetch _ => True end)
       (effects (get location s (bad ++ Resolved resp :: rest))).
Proof.
  intros Hk Hlen Hbad Hvalid. unfold sunriseClient.get.
  rewrite (loop_recovers numberToString); [| lia | | assumption].
  2:{ eapply Forall_impl; [exact Hbad|].
      intros [r|e]; simpl; [apply zero_day_transient | auto]. }
  cbn [outcome final_retries effects].
  rewrite requests_turns, delays_turns, slept_turns, Hlen.
  repeat split; try reflexivity.
  clear. induction k as [|k IH]; simpl; repeat constructor. exact IH.
Qed.

End ClientClaims.

Lemma get_exhausts_retries_witness :
  let api := replicate 7 (Resolved Examples.stale) in
  6 <= length api
  /\ exists resp,
      api !! 5 = Some (Resolved resp)
      /\ outcome (get Examples.toString_integer Examples.here module_store api)
         = Some (Rejected (api_error Examples.toString_integer resp))
      /\ final_retries (get Examples.toString_integer Examples.here module_store api) = 5
      /\ requests (effects (get Examples.toString_integer Examples.here module_store api)) = 6
      /\ delays (effects (get Examples.toString_integer Examples.here module_store api)) = 5.
Proof.
  intros api.
  assert (Hlen : 6 <= length api) by (vm_compute; lia).
  split; [exact Hlen|].
  apply (get_exhausts_retries Examples.toString_integer Examples.here module_store api Hlen).
  repeat constructor.
Defined.

Lemma get_fatal_status_witness :
  fatal Examples.invalid = true
  /\ outcome (get Examples.toString_integer Examples.here module_store
                [Resolved Examples.invalid; Resolved Examples.good])
     = Some (Rejected (Error "Sunrise API status: INVALID_REQUEST  Day length: 0")).
Proof.
  split; [reflexivity|].
  apply (get_fatal_status Examples.toString_integer Examples.here module_store
           Examples.invalid [Resolved Examples.good]).
  reflexivity.
Defined.

Lemma get_recovers_witness :
  let bad := replicate 3 (Resolved Examples.stale) in
  3 < 5
  /\ length bad = 3
  /\ Forall (fun a => answers zero_day a = true) bad
  /\ valid Examples.good = true
  /\ outcome (get Examples.toString_integer Examples.here module_store
                (bad ++ [Resolved Examples.good]))
     = Some (Resolved (results Examples.good)).
Proof.
  intros bad.
  assert (H1 : 3 < 5) by lia.
  assert (H2 : length bad = 3) by reflexivity.
  assert (H3 : Forall (fun a => answers zero_day a = true) bad) by (repeat constructor).
  assert (H4 : valid Examples.good = true) by reflexivity.
  repeat (split; [assumption|]).
  apply (get_recovers Examples.toString_integer Examples.here module_store 3 bad
           Examples.good [] H1 H2 H3 H4).
Defined.

(** ** Fixed-point notation *)

Section FixedNotation.

Import Number.

Lemma uint_chars_digits (d : uint) : forallb is_digit (uint_chars d) = true.
Proof. induction d; simpl; auto. Qed.

Lemma forallb_replicate_zero (n : nat) : forallb is_digit (replicate n (digit_char 0)) = true.
Proof. induction n; simpl; auto. Qed.

Lemma forallb_take (n : nat) (l : list ascii) :
  forallb is_digit l = true -> forallb is_digit (take n l) = true.
Proof.
  revert n. induction l as [|c l IH]; intros [|n]; simpl; auto.
  intros [Hc Hl]%andb_true_iff. rewrite Hc. simpl. auto.
Qed.

Lemma forallb_drop (n : nat) (l : list ascii) :
  forallb is_digit l = true -> forallb is_digit (drop n l) = true.
Proof.
  revert n. induction l as [|c l IH]; intros [|n]; simpl; auto.
  intros [Hc Hl]%andb_true_iff. auto.
Qed.

(** A point after digits is the first point. *)
Lemma split_point_digits (a b : list ascii) :
  forallb is_digit a = true -> split_point (a ++ "."%char :: b) = Some (a, b).
Proof.
  induction a as [|c a IH]; simpl; [reflexivity|].
  intros [Hc Ha]%andb_true_iff. rewrite IH by assumption.
  destruct (Ascii.eqb_spec c "."); [subst; discriminate | reflexivity].
Qed.

(** What [place_point] builds: at least one digit, a point, [f] digits. *)
Lemma place_point_shape (f : nat) (n : Z) :
  exists a b,
    place_point f n = a ++ "."%char :: b
    /\ a <> [] /\ forallb is_digit a = true
    /\ length b = f /\ forallb is_digit b = true.
Proof.
  unfold place_point.
  set (m := if (length (decimal_digits n) <=? f)
            then replicate (f + 1 - length (decimal_digits n)) (digit_char 0) ++ decimal_digits n
            else decimal_digits n).
  assert (Hm : forallb is_digit m = true).
  { subst m. destruct (length (decimal_digits n) <=? f).
    - rewrite forallb_app, forallb_replicate_zero. apply uint_chars_digits.
    - apply uint_chars_digits. }
  assert (Hk : f + 1 <= length m).
  { subst m. destruct (Nat.leb_spec (length (decimal_digits n)) f).
    - rewrite length_app, length_replicate. lia.
    - lia. }
  exists (take (length m - f) m), (drop (length m - f) m).
  split; [reflexivity|]. split; [|split; [|split]].
  - intros Hnil. apply (f_equal length) in Hnil. rewrite length_take in Hnil.
    simpl in Hnil. lia.
  - apply forallb_take, Hm.
  - rewrite length_drop. lia.
  - apply forallb_drop, Hm.
Qed.

Lemma list_ascii_of_string_append (s1 s2 : string) :
  list_ascii_of_string (s1 +:+ s2) = list_ascii_of_string s1 ++ list_ascii_of_string s2.
Proof. induction s1 as [|c s1 IH]; simpl; [reflexivity | rewrite IH; reflexivity]. Qed.

Lemma fixed_notation_intro (f : nat) (sign : bool) (a b : list ascii) :
  a <> [] -> forallb is_digit a = true ->
  length b = f -> forallb is_digit b = true ->
  fixed_notation f ((if sign then "-" else "") +:+ string_of_list_ascii (a ++ "."%char :: b)) = true.
Proof.
  intros Ha Hda Hb Hdb. unfold fixed_notation.
  assert (Hsplit := split_point_digits a b Hda).
  destruct a as [|c a]; [congruence|].
  assert (Hlen : negb (length (c :: a) =? 0) = true) by reflexivity.
  assert (Hc : Ascii.eqb c "-" = false).
  { simpl in Hda. apply andb_true_iff in Hda as [Hc _].
    destruct (Ascii.eqb_spec c "-"); [subst; discriminate | reflexivity]. }
  rewrite list_ascii_of_string_append, list_ascii_of_string_of_list_ascii.
  change ((c :: a) ++ "."%char :: b) with (c :: (a ++ "."%char :: b)) in *.
  destruct sign; cbn [list_ascii_of_string app].
  - cbn [Ascii.eqb Bool.eqb]. rewrite Hsplit, Hlen, Hda, Hdb, Hb, Nat.eqb_refl. reflexivity.
  - rewrite Hc, Hsplit, Hlen, Hda, Hdb, Hb, Nat.eqb_refl. reflexivity.
Qed.

(** In the fixed range [toFixed] does not depend on [Number::toString]
    and writes exactly [f] digits after the point. *)
Lemma toFixed_fixed_notation (numberToString : number -> string) (f : nat) (x : number) :
  fixed_range x = true -> fixed_notation f (toFixed numberToString f x) = true.
Proof.
  destruct x as [s|s| |s m e]; simpl; try discriminate.
  - intros _. destruct (place_point_shape f 0) as (a & b & -> & Ha & Hda & Hb & Hdb).
    apply (fixed_notation_intro f false); assumption.
  - intros Hr. apply negb_true_iff in Hr. rewrite Hr.
    destruct (place_point_shape f (nearest_scaled f m e)) as (a & b & -> & Ha & Hda & Hb & Hdb).
    apply fixed_notation_intro; assumption.
Qed.

(** [nearest_scaled f m e] is the integer nearest to [m * 2^e * 10^f], the
    larger one of two: with [d = 2^(-e)], the difference
    [m * 10^f / d - n] lies in [[-1/2, 1/2)]. *)
Lemma nearest_scaled_nearest (f : nat) (m : positive) (e : Z) :
  (e < 0)%Z ->
  let n := nearest_scaled f m e in
  let d := (2 ^ (- e))%Z in
  (- d <= 2 * (Z.pos m * 10 ^ Z.of_nat f - n * d) < d)%Z.
Proof.
  intros He n d. subst n. unfold nearest_scaled.
  destruct (Z.leb_spec 0 e); [lia|].
  replace (1 - e)%Z with (Z.succ (- e)) by lia.
  rewrite Z.pow_succ_r by lia. fold d.
  assert (Hd : (0 < d)%Z) by (apply Z.pow_pos_nonneg; lia).
  set (x := (Z.pos m * 10 ^ Z.of_nat f)%Z).
  replace (2 * Z.pos m * 10 ^ Z.of_nat f)%Z with (2 * x)%Z by (subst x; lia).
  pose proof (Z.mul_div_le (2 * x + d) (2 * d) ltac:(lia)).
  pose proof (Z.mul_succ_div_gt (2 * x + d) (2 * d) ltac:(lia)).
  lia.
Qed.

End FixedNotation.

(** ** Query strings *)

Section Query.

Import Number.

Lemma digit_unreserved (c : ascii) : is_digit c = true -> Url.unreserved c = true.
Proof.
  destruct c as [[] [] [] [] [] [] [] []]; vm_compute; congruence.
Qed.

Lemma encode_unreserved (l : list ascii) :
  forallb Url.unreserved l = true -> flat_map Url.encode_unit l = l.
Proof.
  induction l as [|c l IH]; simpl; [reflexivity|].
  intros [Hc Hl]%andb_true_iff. rewrite IH by assumption.
  unfold Url.encode_unit. rewrite Hc. reflexivity.
Qed.

Lemma split_point_app (l a b : list ascii) :
  split_point l = Some (a, b) -> l = a ++ "."%char :: b.
Proof.
  revert a. induction l as [|c l IH]; intros a; simpl; [discriminate|].
  destruct (Ascii.eqb_spec c ".").
  - intros [= <- <-]. subst. reflexivity.
  - destruct (split_point l) as [[a' b']|]; [|discriminate].
    intros [= <- <-]. rewrite (IH a' eq_refl). reflexivity.
Qed.

Lemma forallb_digit_unreserved (l : list ascii) :
  forallb is_digit l = true -> forallb Url.unreserved l = true.
Proof.
  induction l as [|c l IH]; simpl; [reflexivity|].
  intros [Hc Hl]%andb_true_iff. rewrite digit_unreserved, IH by assumption. reflexivity.
Qed.

(** The serializer leaves a number in fixed-point notation as it is. *)
Lemma encode_fixed_notation (f : nat) (s : string) :
  fixed_notation f s = true -> Url.encode s = s.
Proof.
  unfold fixed_notation, Url.encode. intros H.
  rewrite encode_unreserved; [apply string_of_list_ascii_of_string|].
  destruct (list_ascii_of_string s) as [|c l]; [discriminate|].
  assert (Hrest : forall l',
             match split_point l' with
             | Some (a, b) =>
                 negb (length a =? 0) && forallb is_digit a
                 && (length b =? f) && forallb is_digit b
             | None => false
             end = true -> forallb Url.unreserved l' = true).
  { intros l' Hl'. destruct (split_point l') as [[a b]|] eqn:Hs; [|discriminate].
    apply split_point_app in Hs as ->.
    apply andb_true_iff in Hl' as [[[_ Ha]%andb_true_iff _]%andb_true_iff Hb].
    rewrite forallb_app. cbn [forallb].
    rewrite !forallb_digit_unreserved by assumption. reflexivity. }
  destruct (Ascii.eqb_spec c "-") as [->|_].
  - cbn [forallb]. rewrite (Hrest l H). reflexivity.
  - apply Hrest, H.
Qed.

Lemma get_set_eq (name value : string) (l : Url.params) :
  Url.get name (Url.set name value l) = Some value.
Proof.
  induction l as [|[n v] l IH]; simpl.
  - rewrite String.eqb_refl. reflexivity.
  - destruct (String.eqb_spec n name); simpl.
    + rewrite String.eqb_refl. reflexivity.
    + destruct (String.eqb_spec n name); [contradiction | exact IH].
Qed.

Lemma get_filter_ne (name name' : string) (l : Url.params) :
  name <> name' -> Url.get name' (filter (fun p => name <> fst p) l) = Url.get name' l.
Proof.
  intros Hne. induction l as [|[n v] l IH]; [reflexivity|].
  rewrite filter_cons. destruct (decide (name <> fst (n, v))) as [Hn|Hn]; simpl in *.
  - rewrite IH. reflexivity.
  - destruct (String.eqb_spec n name') as [->|_]; [|exact IH].
    exfalso. apply Hn. exact Hne.
Qed.

Lemma get_set_ne (name name' value : string) (l : Url.params) :
  name <> name' -> Url.get name' (Url.set name value l) = Url.get name' l.
Proof.
  intros Hne. induction l as [|[n v] l IH]; simpl.
  - destruct (String.eqb_spec name name'); [contradiction | reflexivity].
  - destruct (String.eqb_spec n name) as [->|Hn]; simpl.
    + destruct (String.eqb_spec name name'); [contradiction|].
      apply get_filter_ne, Hne.
    + rewrite IH. reflexivity.
Qed.

End Query.

(** ** The request of a call *)

Section Request.

Variable numberToString : number -> string.

Abbreviation toFixed := (Number.toFixed numberToString).
Abbreviation prepare := (prepare numberToString).
Abbreviation visited := (visited numberToString).
Abbreviation request_url := (request_url numberToString).

Lemma prepare_shaped (location : LatLon) (s : store) :
  shaped s ->
  baseUrl (prepare location s)
  = Url.mkURL "https://api.sunrise-sunset.org/json"
      [("lat", toFixed 7 (lat location)); ("lng", toFixed 7 (lon location)); ("formatted", "0")].
Proof.
  intros [Hend Hq]. unfold sunriseClient.prepare, Url.searchParams_set. cbn [baseUrl Url.endpoint Url.searchParams].
  rewrite Hend. f_equal.
  destruct Hq as [-> | (a & b & ->)]; reflexivity.
Qed.

Lemma visited_shaped (previous : list LatLon) : shaped (visited previous).
Proof.
  unfold sunriseClient.prepare.
  assert (H : forall s, shaped s ->
                shaped (fold_left (fun s location => prepare location s) previous s)).
  { induction previous as [|location previous IH]; intros s Hs; [exact Hs|].
    simpl. apply IH. split.
    - rewrite prepare_shaped by assumption. reflexivity.
    - right. rewrite prepare_shaped by assumption. eauto. }
  apply H. split; [reflexivity | left; reflexivity].
Qed.

Lemma href_prepare (location : LatLon) (s : store) :
  shaped s -> Url.href (baseUrl (prepare location s)) = request_url location.
Proof. intros Hs. rewrite prepare_shaped by assumption. reflexivity. Qed.

(** Every request of a call that is alone on the store goes to one URL. *)
Lemma loop_requests (s : store) (api : list (settled SunriseResponse)) :
  forall retries,
    Forall (fun eff => match eff with
                       | Fetch url => url = Url.href (baseUrl s)
                       | Sleep _ => True
                       end)
      (effects (loop numberToString s retries api)).
Proof.
  induction api as [|[resp|e] api IH]; intros retries; simpl; try (repeat constructor).
  destruct (examine numberToString retries resp); simpl; repeat constructor. apply IH.
Qed.

(** C7. A call of [get], on the store as any earlier calls left it, sends
    its request to the endpoint with the query
    [lat=...&lng=...&formatted=0], where the two values are
    [location.lat.toFixed(7)] and [location.lon.toFixed(7)] as the query
    serializer writes them: [formatted=0] is set for every coordinate.
    For a finite coordinate below 10^21 in magnitude (every latitude and
    longitude is) the value is in fixed-point notation with exactly 7
    digits after the point and the serializer leaves it as it is.
    [{lat: 45.1234567, lon: -93.7654321}] gives
    [lat=45.1234567&lng=-93.7654321]. *)
Theorem get_request_url (previous : list LatLon) (location : LatLon) :
  let s := visited previous in
  start numberToString location s
  = (prepare location s, AwaitFetch 0, [Fetch (request_url location)])
  /\ (forall api,
        Forall (fun eff => match eff with
                           | Fetch url => url = request_url location
                           | Sleep _ => True
                           end)
          (effects (get numberToString location s api)))
  /\ Url.get "formatted" (Url.searchParams (baseUrl (prepare location s))) = Some "0"
  /\ (Number.fixed_range (lat location) = true ->
      Number.fixed_notation 7 (toFixed 7 (lat location)) = true
      /\ Url.encode (toFixed 7 (lat location)) = toFixed 7 (lat location))
  /\ (Number.fixed_range (lon location) = true ->
      Number.fixed_notation 7 (toFixed 7 (lon location)) = true
      /\ Url.encode (toFixed 7 (lon location)) = toFixed 7 (lon location))
  /\ request_url Examples.here
     = "https://api.sunrise-sunset.org/json?lat=45.1234567&lng=-93.7654321&formatted=0".
Proof.
  intros s. assert (Hs : shaped s) by apply visited_shaped.
  split; [|split; [|split; [|split; [|split]]]].
  - unfold start. rewrite href_prepare by assumption. reflexivity.
  - intros api. unfold get. rewrite <- (href_prepare location s Hs). apply loop_requests.
  - rewrite prepare_shaped by assumption. reflexivity.
  - intros Hr. pose proof (toFixed_fixed_notation numberToString 7 _ Hr) as Hn.
    split; [exact Hn | exact (encode_fixed_notation 7 _ Hn)].
  - intros Hr. pose proof (toFixed_fixed_notation numberToString 7 _ Hr) as Hn.
    split; [exact Hn | exact (encode_fixed_notation 7 _ Hn)].
  - vm_compute. reflexivity.
Qed.

(** C10. [get] builds no URL of its own: its three [searchParams.set]
    calls write to the one [baseUrl] of the store. After the call, on
    whatever store, the query of [baseUrl] holds this caller's latitude and
    longitude and [formatted=0], so [baseUrl] is no longer the URL the
    module created; and a call suspended in its retry delay, whichever
    call it is, sends its next request to [baseUrl] as the store then has
    it, with the coordinate of the most recent caller. *)
Theorem get_mutates_baseUrl (s : store) (location : LatLon) :
  let s' := fst (fst (start numberToString location s)) in
  Url.get "lat" (Url.searchParams (baseUrl s')) = Some (toFixed 7 (lat location))
  /\ Url.get "lng" (Url.searchParams (baseUrl s')) = Some (toFixed 7 (lon location))
  /\ Url.get "formatted" (Url.searchParams (baseUrl s')) = Some "0"
  /\ baseUrl s' <> baseUrl module_store
  /\ (forall retries,
        resume numberToString s' (AwaitSleep retries) Timer
        = Some (AwaitFetch retries, [Fetch (Url.href (baseUrl (prepare location s)))])).
Proof.
  cbn [start fst]. unfold sunriseClient.prepare, Url.searchParams_set.
  cbn [baseUrl Url.searchParams Url.endpoint].
  split; [|split; [|split; [|split]]].
  - rewrite get_set_ne, get_set_ne, get_set_eq by discriminate. reflexivity.
  - rewrite get_set_ne, get_set_eq by discriminate. reflexivity.
  - apply get_set_eq.
  - intros H. apply (f_equal (fun u => Url.get "formatted" (Url.searchParams u))) in H.
    cbn [Url.searchParams] in H. rewrite get_set_eq in H. discriminate.
  - reflexivity.
Qed.

End Request.

(** The example coordinate is the pair of binary64 numbers nearest to
    45.1234567 and -93.7654321: each mantissa has 53 bits and is within
    half a unit in the last place of the decimal. *)
Lemma here_nearest :
  Examples.here
  = {| lat := S754_finite false 6350561961868397 (-47);
       lon := S754_finite true 6598155704153024 (-46) |}
  /\ (2 ^ 52 <= 6350561961868397 < 2 ^ 53
      /\ 2 * Z.abs (6350561961868397 * 10 ^ 7 - 451234567 * 2 ^ 47) <= 10 ^ 7)%Z
  /\ (2 ^ 52 <= 6598155704153024 < 2 ^ 53
      /\ 2 * Z.abs (6598155704153024 * 10 ^ 7 - 937654321 * 2 ^ 46) <= 10 ^ 7)%Z.
Proof. split; [reflexivity|]. vm_compute. intuition congruence. Qed.

Lemma get_request_url_witness :
  Number.fixed_range (lat Examples.here) = true
  /\ Number.fixed_range (lon Examples.here) = true
  /\ start Examples.toString_integer Examples.here module_store
     = (prepare Examples.toString_integer Examples.here module_store, AwaitFetch 0,
        [Fetch "https://api.sunrise-sunset.org/json?lat=45.1234567&lng=-93.7654321&formatted=0"]).
Proof.
  split; [reflexivity|]. split; [reflexivity|].
  exact (proj1 (get_request_url Examples.toString_integer [] Examples.here)).
Defined.

(** ** The order of strings *)

Section StringOrder.

Lemma ascii_compare_refl (a : ascii) : Ascii.compare a a = Eq.
Proof. unfold Ascii.compare. apply N.compare_refl. Qed.

Lemma ascii_compare_lt_trans (a b c : ascii) :
  Ascii.compare a b = Lt -> Ascii.compare b c = Lt -> Ascii.compare a c = Lt.
Proof.
  unfold Ascii.compare. rewrite !N.compare_lt_iff. apply N.lt_trans.
Qed.

Lemma string_compare_refl (s : string) : String.compare s s = Eq.
Proof.
  induction s as [|a s IH]; simpl; [reflexivity|].
  rewrite ascii_compare_refl. exact IH.
Qed.

Lemma string_compare_lt_trans (s1 : string) :
  forall s2 s3,
    String.compare s1 s2 = Lt -> String.compare s2 s3 = Lt -> String.compare s1 s3 = Lt.
Proof.
  induction s1 as [|a s1 IH]; intros [|b s2] [|c s3]; simpl; try congruence.
  destruct (Ascii.compare a b) eqn:Hab; try discriminate;
    destruct (Ascii.compare b c) eqn:Hbc; try discriminate; intros H12 H23.
  - apply Ascii.compare_eq_iff in Hab, Hbc. subst.
    rewrite ascii_compare_refl. eapply IH; eassumption.
  - apply Ascii.compare_eq_iff in Hab. subst. rewrite Hbc. reflexivity.
  - apply Ascii.compare_eq_iff in Hbc. subst. rewrite Hab. reflexivity.
  - rewrite (ascii_compare_lt_trans a b c) by assumption. reflexivity.
Qed.

Lemma ltb_lt (s1 s2 : string) : String.ltb s1 s2 = true <-> String.compare s1 s2 = Lt.
Proof. unfold String.ltb. destruct (String.compare s1 s2); split; congruence. Qed.

Lemma ltb_irrefl (s : string) : String.ltb s s = false.
Proof. unfold String.ltb. rewrite string_compare_refl. reflexivity. Qed.

Lemma ltb_trans (s1 s2 s3 : string) :
  String.ltb s1 s2 = true -> String.ltb s2 s3 = true -> String.ltb s1 s3 = true.
Proof. rewrite !ltb_lt. apply string_compare_lt_trans. Qed.

(** [s1 <= s2] and [s2 <= s3] give [s1 <= s3], with [<=] as "not greater". *)
Lemma not_ltb_trans (s1 s2 s3 : string) :
  String.ltb s2 s1 = false -> String.ltb s3 s2 = false -> String.ltb s3 s1 = false.
Proof.
  intros H21 H32.
  destruct (String.ltb s3 s1) eqn:H31; [|reflexivity].
  destruct (String.compare s2 s1) eqn:Hc.
  - apply String.compare_eq_iff in Hc. subst. congruence.
  - apply ltb_lt in Hc. congruence.
  - assert (Hlt : String.ltb s1 s2 = true).
    { apply ltb_lt. rewrite String.compare_antisym, Hc. reflexivity. }
    rewrite (ltb_trans s3 s1 s2) in H32 by assumption. discriminate.
Qed.

(** [s1 <= s2] and [s2 < s3] give [s1 <= s3]. *)
Lemma not_ltb_ltb (s1 s2 s3 : string) :
  String.ltb s2 s1 = false -> String.ltb s2 s3 = true -> String.ltb s3 s1 = false.
Proof.
  intros H21 H23.
  destruct (String.ltb s3 s1) eqn:H31; [|reflexivity].
  rewrite (ltb_trans s2 s3 s1) in H21 by assumption. discriminate.
Qed.

End StringOrder.

(** ** The reducer *)

Section Reducer.

Import index.

(** The fold keeps the last of the smallest: one more element. *)
Lemma last_minimum_snoc (l : list SunriseResult) (r b : SunriseResult) :
  last_minimum l r -> last_minimum (l ++ [b]) (earlier r b).
Proof.
  intros (i & [Hi Hmin] & Hlater).
  assert (Hlt : i < length l) by (eapply lookup_lt_Some; eassumption).
  unfold earlier. destruct (String.ltb (sunrise r) (sunrise b)) eqn:Hrb.
  - exists i. split; [split|].
    + rewrite lookup_app_l by assumption. exact Hi.
    + intros j x Hj. apply lookup_app_Some in Hj as [Hj | [_ Hj]]; [eauto|].
      apply list_lookup_singleton_Some in Hj as [_ <-].
      eapply not_ltb_ltb; [apply ltb_irrefl | exact Hrb].
    + intros j x Hj Hij. apply lookup_app_Some in Hj as [Hj | [_ Hj]]; [eauto|].
      apply list_lookup_singleton_Some in Hj as [_ <-]. exact Hrb.
  - exists (length l). split; [split|].
    + rewrite lookup_app_r by lia. rewrite Nat.sub_diag. reflexivity.
    + intros j x Hj. apply lookup_app_Some in Hj as [Hj | [_ Hj]].
      * destruct (Nat.lt_trichotomy j i) as [Hji | [-> | Hij]].
        -- eapply not_ltb_trans; [exact Hrb | eauto].
        -- rewrite Hi in Hj. injection Hj as <-. exact Hrb.
        -- eapply not_ltb_ltb; [exact Hrb | eauto].
      * apply list_lookup_singleton_Some in Hj as [_ <-]. apply ltb_irrefl.
    + intros j x Hj Hij. apply lookup_lt_Some in Hj. rewrite length_app in Hj.
      simpl in Hj. lia.
Qed.

Lemma fold_last_minimum (rest : list SunriseResult) :
  forall first, last_minimum (first :: rest) (fold_left earlier rest first).
Proof.
  induction rest as [|b rest IH] using rev_ind; intros first.
  - simpl. exists 0. split; [split; [reflexivity|]|].
    + intros j x Hj. apply list_lookup_singleton_Some in Hj as [_ <-]. apply ltb_irrefl.
    + intros j x Hj Hij. apply lookup_lt_Some in Hj. simpl in Hj. lia.
  - rewrite fold_left_app. simpl.
    change (first :: rest ++ [b]) with ((first :: rest) ++ [b]).
    apply last_minimum_snoc, IH.
Qed.

(** C4, as the code has it. On a sequence with at least one record,
    [findEarliestSunrise] returns a record of the sequence whose sunrise
    no other record's sunrise is below, in the order of strings; when
    several records have that smallest sunrise it returns the one that
    occurs last, so every record after the returned one has a strictly
    greater sunrise. *)
Theorem findEarliestSunrise_last_minimum (first : SunriseResult) (rest : list SunriseResult) :
  exists earliest,
    findEarliestSunrise (first :: rest) = inr earliest
    /\ last_minimum (first :: rest) earliest.
Proof.
  eexists. split; [reflexivity|]. apply fold_last_minimum.
Qed.

(** C4, as stated, fails: of two records with the same sunrise the
    second is returned, not the first. *)
Lemma findEarliestSunrise_tie_returns_later :
  let a := Examples.record "2024-01-01T05:30:00+00:00" 41400 in
  let b := Examples.record "2024-01-01T05:30:00+00:00" 39600 in
  findEarliestSunrise [a; b] = inr b /\ ~ first_minimum [a; b] b.
Proof.
  intros a b. split; [reflexivity|].
  intros (i & [Hi _] & Hfirst).
  destruct i as [|[|i]]; try discriminate.
  apply (Hfirst 0 a); [reflexivity | lia | reflexivity].
Qed.

(** The specification's example: of 06:00, 05:30 and 07:00 the second. *)
Example findEarliestSunrise_three :
  findEarliestSunrise
    [Examples.record "2024-01-01T06:00:00Z" 1; Examples.record "2024-01-01T05:30:00Z" 2;
     Examples.record "2024-01-01T07:00:00Z" 3]
  = inr (Examples.record "2024-01-01T05:30:00Z" 2).
Proof. reflexivity. Qed.

(** C8. [findEarliestSunrise] fails on the sequence of no records, and
    only there: [reduce] without an initial value throws a [TypeError]
    on an empty array. *)
Theorem findEarliestSunrise_empty :
  findEarliestSunrise [] = inl (TypeError "Reduce of empty array with no initial value")
  /\ forall sunrises, (exists err, findEarliestSunrise sunrises = inl err) <-> sunrises = [].
Proof.
  split; [reflexivity|].
  intros [|first rest]; split.
  - reflexivity.
  - intros _. eexists. reflexivity.
  - intros [err H]. discriminate.
  - discriminate.
Qed.

End Reducer.

(** ** The batch *)

Section Batch.

Import index.

Variable numberToString : number -> string.

Abbreviation spawn := (spawn numberToString).
Abbreviation main := (main numberToString).
Abbreviation step := (step numberToString).
Abbreviation exec := (exec numberToString).

(** *** Traces *)

Lemma first_rejection_app (tr1 tr2 : list event) :
  first_rejection (tr1 ++ tr2)
  = match first_rejection tr1 with
    | Some e => Some e
    | None => first_rejection tr2
    end.
Proof.
  induction tr1 as [|ev tr1 IH]; simpl; [reflexivity|].
  destruct ev as [i eff|i [r|e]|v|e]; auto.
Qed.

Lemma first_rejection_did (i : nat) (effs : list effect) :
  first_rejection (Did i <$> effs) = None.
Proof. induction effs; simpl; auto. Qed.

Lemma first_rejection_handlers (st : option (settled (list SunriseResult))) :
  first_rejection (from_option handlers [] st) = None.
Proof.
  destruct st as [[sunrises|e]|]; simpl; try reflexivity.
  destruct (findEarliestSunrise sunrises); reflexivity.
Qed.

Lemma outputs_did (i : nat) (effs : list effect) :
  List.filter is_output (Did i <$> effs) = [].
Proof. induction effs; simpl; auto. Qed.

Lemma outputs_handlers (st : option (settled (list SunriseResult))) :
  List.filter is_output (from_option handlers [] st) = from_option handlers [] st.
Proof.
  destruct st as [[sunrises|e]|]; simpl; try reflexivity.
  destruct (findEarliestSunrise sunrises); reflexivity.
Qed.

(** *** Calls in the list of tasks *)

Lemma unfulfilled_insert (ts : list task) :
  forall i t t',
    ts !! i = Some t ->
    unfulfilled (<[i := t']> ts) + waiting t = unfulfilled ts + waiting t'.
Proof.
  induction ts as [|t0 ts IH]; intros [|i] t t' Hi; simpl in *; try discriminate.
  - injection Hi as ->. lia.
  - specialize (IH i t t' Hi). lia.
Qed.

Lemma unfulfilled_lookup (ts : list task) (i : nat) (t : task) :
  ts !! i = Some t -> fulfilled t = None -> 1 <= unfulfilled ts.
Proof.
  revert i. induction ts as [|t0 ts IH]; intros [|i] Hi Hf; simpl in *; try discriminate.
  - injection Hi as ->. unfold waiting. rewrite Hf. lia.
  - specialize (IH i Hi Hf). lia.
Qed.

Lemma fulfilled_insert (ts : list task) (i : nat) (t t' : task) :
  ts !! i = Some t -> fulfilled t = fulfilled t' ->
  fulfilled <$> <[i := t']> ts = fulfilled <$> ts.
Proof.
  intros Hi Hf. rewrite list_fmap_insert. apply list_insert_id.
  rewrite list_lookup_fmap, Hi. simpl. congruence.
Qed.

Lemma not_failed_insert (ts : list task) (i : nat) (t' : task) :
  failed t' = false ->
  Forall (fun t => failed t = false) ts ->
  Forall (fun t => failed t = false) (<[i := t']> ts).
Proof. intros Ht' Hts. apply Forall_insert; assumption. Qed.

Lemma rejected_insert (ts : list task) (i j : nat) (t t' : task) (e : JsError) :
  ts !! i = Some t -> failed t = false ->
  ts !! j = Some (Done (Rejected e)) ->
  <[i := t']> ts !! j = Some (Done (Rejected e)).
Proof.
  intros Hi Ht Hj. rewrite list_lookup_insert_ne; [exact Hj|].
  intros ->. rewrite Hi in Hj. injection Hj as ->. discriminate.
Qed.

(** *** The invariant *)

(** A call moves from one [await] to the next. *)
Lemma invariant_quiet (p : program) (i : nat) (t t' : task) (effs : list effect) :
  invariant p ->
  tasks p !! i = Some t ->
  fulfilled t = None -> failed t = false ->
  fulfilled t' = None -> failed t' = false ->
  invariant {| shared := shared p; tasks := <[i := t']> (tasks p); all := all p;
               trace := trace p ++ (Did i <$> effs) |}.
Proof.
  intros [Hv Hr Hp Hf Ho] Hi Ht Hnf Ht' Hnf'.
  assert (Hu : unfulfilled (<[i := t']> (tasks p)) = unfulfilled (tasks p)).
  { pose proof (unfulfilled_insert (tasks p) i t t' Hi) as H.
    unfold waiting in H. rewrite Ht, Ht' in H. lia. }
  assert (Hfm : fulfilled <$> <[i := t']> (tasks p) = fulfilled <$> tasks p).
  { eapply fulfilled_insert; [eassumption | congruence]. }
  assert (Hfr : first_rejection (trace p ++ (Did i <$> effs)) = first_rejection (trace p)).
  { rewrite first_rejection_app, first_rejection_did.
    destruct (first_rejection (trace p)); reflexivity. }
  split; cbn [shared tasks all trace].
  - rewrite Hfm. exact Hv.
  - rewrite Hu. exact Hr.
  - unfold batch_promise in *. rewrite Hfr, Hu, Hfm. exact Hp.
  - rewrite Hfr. destruct (first_rejection (trace p)) as [e|].
    + destruct Hf as [j Hj]. exists j. eapply rejected_insert; eassumption.
    + apply not_failed_insert; assumption.
  - rewrite List.filter_app, outputs_did, app_nil_r. exact Ho.
Qed.

(** A call returns a record. *)
Lemma invariant_resolve (p : program) (i : nat) (t : task) (r : SunriseResult) :
  invariant p ->
  tasks p !! i = Some t ->
  fulfilled t = None -> failed t = false ->
  invariant (notify i (Resolved r)
               {| shared := shared p; tasks := <[i := Done (Resolved r)]> (tasks p);
                  all := all p; trace := trace p ++ (Did i <$> []) |}).
Proof.
  intros [Hv Hr Hp Hf Ho] Hi Ht Hnf.
  assert (Hu : S (unfulfilled (<[i := Done (Resolved r)]> (tasks p))) = unfulfilled (tasks p)).
  { pose proof (unfulfilled_insert (tasks p) i t (Done (Resolved r)) Hi) as H.
    unfold waiting in H. rewrite Ht in H. simpl in H. lia. }
  assert (Hfr : forall tail,
             first_rejection ((trace p ++ (Did i <$> [])) ++ Settled i (Resolved r) :: tail)
             = match first_rejection (trace p) with
               | Some e => Some e
               | None => first_rejection tail
               end).
  { intros tail. rewrite !first_rejection_app. simpl.
    destruct (first_rejection (trace p)); reflexivity. }
  assert (Hfm : <[i := Some r]> (fulfilled <$> tasks p)
                = fulfilled <$> <[i := Done (Resolved r)]> (tasks p)).
  { rewrite list_fmap_insert. reflexivity. }
  unfold notify, all_resolve_element. cbn [shared tasks all trace].
  rewrite Hv, Hr, Hfm.
  replace (unfulfilled (tasks p) - 1)
    with (unfulfilled (<[i := Done (Resolved r)]> (tasks p))) by lia.
  unfold batch_promise in Hp.
  destruct (first_rejection (trace p)) as [e|] eqn:Hfirst.
  - rewrite Hp. split; cbn [shared tasks all trace values remaining promise].
    + reflexivity.
    + reflexivity.
    + unfold batch_promise. rewrite Hfr. reflexivity.
    + rewrite Hfr. destruct Hf as [j Hj]. exists j.
      eapply rejected_insert; eassumption.
    + rewrite !List.filter_app, outputs_did, Ho, Hp. simpl. reflexivity.
  - assert (Hpending : promise (all p) = None).
    { rewrite Hp. destruct (Nat.eqb_spec (unfulfilled (tasks p)) 0); [lia | reflexivity]. }
    rewrite Hpending. split; cbn [shared tasks all trace values remaining promise].
    + reflexivity.
    + reflexivity.
    + unfold batch_promise. rewrite Hfr, first_rejection_handlers. reflexivity.
    + rewrite Hfr, first_rejection_handlers.
      apply not_failed_insert; [reflexivity | assumption].
    + rewrite !List.filter_app, outputs_did, Ho, Hpending. simpl.
      apply outputs_handlers.
Qed.

(** A call fails. *)
Lemma invariant_reject (p : program) (i : nat) (t : task) (e : JsError) :
  invariant p ->
  tasks p !! i = Some t ->
  fulfilled t = None -> failed t = false ->
  invariant (notify i (Rejected e)
               {| shared := shared p; tasks := <[i := Done (Rejected e)]> (tasks p);
                  all := all p; trace := trace p ++ (Did i <$> []) |}).
Proof.
  intros [Hv Hr Hp Hf Ho] Hi Ht Hnf.
  assert (Hlt : i < length (tasks p)) by (eapply lookup_lt_Some; eassumption).
  assert (Hu : unfulfilled (<[i := Done (Rejected e)]> (tasks p)) = unfulfilled (tasks p)).
  { pose proof (unfulfilled_insert (tasks p) i t (Done (Rejected e)) Hi) as H.
    unfold waiting in H. rewrite Ht in H. simpl in H. lia. }
  assert (Hfm : fulfilled <$> <[i := Done (Rejected e)]> (tasks p) = fulfilled <$> tasks p).
  { eapply fulfilled_insert; [eassumption | rewrite Ht; reflexivity]. }
  assert (Hfr : forall tail,
             first_rejection ((trace p ++ (Did i <$> [])) ++ Settled i (Rejected e) :: tail)
             = match first_rejection (trace p) with
               | Some e0 => Some e0
               | None => Some e
               end).
  { intros tail. rewrite !first_rejection_app. simpl.
    destruct (first_rejection (trace p)); reflexivity. }
  unfold notify, all_reject. cbn [shared tasks all trace].
  unfold batch_promise in Hp.
  destruct (first_rejection (trace p)) as [e0|] eqn:Hfirst.
  - rewrite Hp. split; cbn [shared tasks all trace values remaining promise].
    + rewrite Hfm. exact Hv.
    + rewrite Hu. exact Hr.
    + unfold batch_promise. rewrite Hfr. reflexivity.
    + rewrite Hfr. destruct Hf as [j Hj]. exists j.
      eapply rejected_insert; eassumption.
    + rewrite !List.filter_app, outputs_did, Ho, Hp. simpl. reflexivity.
  - assert (Hpending : promise (all p) = None).
    { rewrite Hp. pose proof (unfulfilled_lookup _ _ _ Hi Ht).
      destruct (Nat.eqb_spec (unfulfilled (tasks p)) 0); [lia | reflexivity]. }
    rewrite Hpending. split; cbn [shared tasks all trace values remaining promise].
    + rewrite Hfm. exact Hv.
    + rewrite Hu. exact Hr.
    + unfold batch_promise. rewrite Hfr. reflexivity.
    + rewrite Hfr. exists i. apply list_lookup_insert_eq. exact Hlt.
    + rewrite !List.filter_app, outputs_did, Ho, Hpending. simpl. reflexivity.
Qed.

(** One step keeps the invariant. *)
Lemma step_invariant (i : nat) (w : wakeup) (p p' : program) :
  invariant p -> step i w p = Some p' -> invariant p'.
Proof.
  intros Hinv Hstep. unfold index.step in Hstep.
  destruct (tasks p !! i) as [t|] eqn:Hi; simpl in Hstep; [|discriminate].
  destruct t as [retries|retries|c], w as [[resp|e]|]; simpl in Hstep; try discriminate.
  - destruct (examine numberToString retries resp) as [r| |e];
      simpl in Hstep; injection Hstep as <-.
    + apply (invariant_resolve p i (AwaitFetch retries) r); auto.
    + apply (invariant_quiet p i (AwaitFetch retries) (AwaitSleep (S retries)) [Sleep 10]);
        auto.
    + apply (invariant_reject p i (AwaitFetch retries) e); auto.
  - injection Hstep as <-. apply (invariant_reject p i (AwaitFetch retries) e); auto.
  - injection Hstep as <-.
    apply (invariant_quiet p i (AwaitSleep retries) (AwaitFetch retries)
             [Fetch (Url.href (baseUrl (shared p)))]); auto.
Qed.

Lemma exec_invariant (schedule : list (nat * wakeup)) :
  forall p p', invariant p -> exec schedule p = Some p' -> invariant p'.
Proof.
  induction schedule as [|[i w] schedule IH]; intros p p' Hinv Hexec; simpl in Hexec.
  - injection Hexec as <-. exact Hinv.
  - destruct (step i w p) as [p1|] eqn:Hstep; simpl in Hexec; [|discriminate].
    eapply IH; [|exact Hexec]. eapply step_invariant; eassumption.
Qed.

(** *** The start of the program *)

Lemma spawn_cons (i : nat) (loc : LatLon) (locations : list LatLon) (s : store) :
  spawn i (loc :: locations) s
  = let '(s', ts, evs) := spawn (S i) locations (prepare numberToString loc s) in
    (s', AwaitFetch 0 :: ts,
     Did i (Fetch (Url.href (baseUrl (prepare numberToString loc s)))) :: evs).
Proof. reflexivity. Qed.

Lemma spawn_tasks (locations : list LatLon) :
  forall i s, snd (fst (spawn i locations s)) = replicate (length locations) (AwaitFetch 0).
Proof.
  induction locations as [|loc locations IH]; intros i s; simpl; [reflexivity|].
  specialize (IH (S i) (prepare numberToString loc s)).
  destruct (index.spawn numberToString (S i) locations (prepare numberToString loc s))
    as [[s' ts] evs].
  simpl in *. rewrite IH. reflexivity.
Qed.

Lemma spawn_store (locations : list LatLon) :
  forall i s,
    fst (fst (spawn i locations s))
    = fold_left (fun s location => prepare numberToString location s) locations s.
Proof.
  induction locations as [|loc locations IH]; intros i s; simpl; [reflexivity|].
  specialize (IH (S i) (prepare numberToString loc s)).
  destruct (index.spawn numberToString (S i) locations (prepare numberToString loc s))
    as [[s' ts] evs].
  simpl in *. exact IH.
Qed.

(** The synchronous part only sends requests: the one of call [i] for
    [locations[i]]. *)
Lemma spawn_events (locations : list LatLon) :
  forall i s,
    first_rejection (snd (spawn i locations s)) = None
    /\ List.filter is_output (snd (spawn i locations s)) = []
    /\ (shaped s ->
        forall k location,
          locations !! k = Some location ->
          Did (i + k) (Fetch (request_url numberToString location)) ∈ snd (spawn i locations s)).
Proof.
  induction locations as [|loc locations IH]; intros i s.
  - split; [reflexivity|]. split; [reflexivity|]. intros _ k location Hk. discriminate.
  - rewrite spawn_cons.
    specialize (IH (S i) (prepare numberToString loc s)).
    destruct (index.spawn numberToString (S i) locations (prepare numberToString loc s))
      as [[s' ts] evs].
    cbn [fst snd] in *. destruct IH as (Hfirst & Hout & Hsent).
    split; [exact Hfirst|]. split; [exact Hout|].
    intros Hs [|k] location Hk; simpl in Hk.
    + injection Hk as ->. rewrite Nat.add_0_r, href_prepare by assumption. left.
    + right. replace (i + S k) with (S i + k) by lia. apply Hsent; [|exact Hk].
      split.
      * rewrite prepare_shaped by assumption. reflexivity.
      * right. rewrite prepare_shaped by assumption. eauto.
Qed.

Lemma unfulfilled_replicate (n retries : nat) :
  unfulfilled (replicate n (AwaitFetch retries)) = n.
Proof. induction n as [|n IH]; simpl; [reflexivity | rewrite IH; reflexivity]. Qed.

Lemma main_tasks (locations : list LatLon) :
  tasks (main locations) = replicate (length locations) (AwaitFetch 0).
Proof.
  unfold index.main. rewrite <- (spawn_tasks locations 0 module_store).
  destruct (index.spawn numberToString 0 locations module_store) as [[s ts] evs]. reflexivity.
Qed.

Lemma main_shared (locations : list LatLon) :
  shared (main locations) = visited numberToString locations.
Proof.
  unfold index.main, visited. rewrite <- (spawn_store locations 0 module_store).
  destruct (index.spawn numberToString 0 locations module_store) as [[s ts] evs]. reflexivity.
Qed.

Lemma main_invariant (locations : list LatLon) : invariant (main locations).
Proof.
  pose proof (spawn_tasks locations 0 module_store) as Hts.
  destruct (spawn_events locations 0 module_store) as (Hfirst & Hout & _).
  unfold index.main.
  destruct (index.spawn numberToString 0 locations module_store) as [[s ts] evs].
  simpl in Hts, Hfirst, Hout. subst ts. rewrite length_replicate.
  assert (Hfr : first_rejection
                  (evs ++ from_option handlers [] (promise (all_init (length locations))))
                = None).
  { rewrite first_rejection_app, Hfirst. apply first_rejection_handlers. }
  split; cbn [shared tasks all trace].
  - simpl. rewrite fmap_replicate. reflexivity.
  - simpl. rewrite unfulfilled_replicate. reflexivity.
  - unfold batch_promise. rewrite Hfr, unfulfilled_replicate. simpl.
    destruct (length locations); reflexivity.
  - rewrite Hfr. apply Forall_replicate. reflexivity.
  - rewrite List.filter_app, Hout, outputs_handlers. reflexivity.
Qed.

(** *** What a schedule cannot change *)

Lemma step_frame (i : nat) (w : wakeup) (p p' : program) :
  step i w p = Some p' ->
  shared p' = shared p
  /\ length (tasks p') = length (tasks p)
  /\ exists tail, trace p' = trace p ++ tail.
Proof.
  intros Hstep. unfold index.step in Hstep.
  destruct (tasks p !! i) as [t|]; simpl in Hstep; [|discriminate].
  destruct (resume numberToString (shared p) t w) as [[t' effs]|]; simpl in Hstep; [|discriminate].
  injection Hstep as <-.
  destruct t' as [retries|retries|c]; unfold notify; cbn [shared tasks trace];
    rewrite ?length_insert; repeat split; eauto.
  rewrite <- app_assoc. eauto.
Qed.

Lemma exec_frame (schedule : list (nat * wakeup)) :
  forall p p',
    exec schedule p = Some p' ->
    shared p' = shared p
    /\ length (tasks p') = length (tasks p)
    /\ exists tail, trace p' = trace p ++ tail.
Proof.
  induction schedule as [|[i w] schedule IH]; intros p p' Hexec; simpl in Hexec.
  - injection Hexec as <-. repeat split. exists []. rewrite app_nil_r. reflexivity.
  - destruct (step i w p) as [p1|] eqn:Hstep; simpl in Hexec; [|discriminate].
    destruct (step_frame _ _ _ _ Hstep) as (Hs1 & Hl1 & tail1 & Ht1).
    destruct (IH _ _ Hexec) as (Hs2 & Hl2 & tail2 & Ht2).
    split; [congruence|]. split; [congruence|].
    exists (tail1 ++ tail2). rewrite Ht2, Ht1, app_assoc. reflexivity.
Qed.

(** When every call has returned, the tasks are the records, in order. *)
Lemma all_fulfilled (ts : list task) :
  (forall t, t ∈ ts -> exists r, t = Done (Resolved r)) ->
  exists sunrises,
    ts = (fun r => Done (Resolved r)) <$> sunrises
    /\ fulfilled <$> ts = Some <$> sunrises
    /\ unfulfilled ts = 0.
Proof.
  induction ts as [|t ts IH]; intros Hall.
  - exists []. repeat split.
  - destruct (Hall t) as [r ->]; [left|].
    destruct IH as (sunrises & Hts & Hf & Hu).
    { intros t Ht. apply Hall. right. exact Ht. }
    exists (r :: sunrises). split; [|split].
    + rewrite Hts at 1. reflexivity.
    + rewrite fmap_cons, Hf. reflexivity.
    + simpl. exact Hu.
Qed.

End Batch.

(** ** The batch: what the program promises *)

Section BatchClaims.

Import index.

Variable numberToString : number -> string.

Abbreviation main := (main numberToString).
Abbreviation step := (step numberToString).
Abbreviation exec := (exec numberToString).
Abbreviation request_url := (request_url numberToString).

Lemma mapM_id_Some (l : list SunriseResult) : mapM id (Some <$> l) = Some l.
Proof.
  apply mapM_Some_2, Forall2_fmap_l, Forall_Forall2_diag, Forall_forall.
  reflexivity.
Qed.

Lemma stdout_of_outputs (tr : list event) :
  List.filter is_stdout tr = List.filter is_stdout (List.filter is_output tr).
Proof.
  induction tr as [|ev tr IH]; simpl; [reflexivity|].
  destruct ev; simpl; rewrite IH; reflexivity.
Qed.

Lemma reachable_invariant (locations : list LatLon) (schedule : list (nat * wakeup))
    (p : program) :
  exec schedule (main locations) = Some p -> invariant p.
Proof. apply exec_invariant, main_invariant. Qed.

(** The first request of call [i] is the one for [locations[i]]. *)
Lemma main_requests (locations : list LatLon) (i : nat) (location : LatLon) :
  locations !! i = Some location ->
  Did i (Fetch (request_url location)) ∈ trace (main locations).
Proof.
  intros Hi.
  destruct (spawn_events numberToString locations 0 module_store) as (_ & _ & Hsent).
  specialize (Hsent (visited_shaped numberToString []) i location Hi).
  unfold index.main.
  destruct (index.spawn numberToString 0 locations module_store) as [[s ts] evs].
  cbn [snd trace] in *. apply elem_of_app. left. exact Hsent.
Qed.

(** C5. When a call of the batch has failed, whatever the other calls did
    or will do: the batch promise is rejected with the error that was
    raised first (the error of one of the calls; the error of the failed
    call when no other call failed), the console shows that error on
    standard error and nothing else, and nothing was written to standard
    output. *)
Theorem batch_fails_with_first_error (locations : list LatLon)
    (schedule : list (nat * wakeup)) (p : program) (i : nat) (e : JsError) :
  exec schedule (main locations) = Some p ->
  tasks p !! i = Some (Done (Rejected e)) ->
  exists first,
    first_rejection (trace p) = Some first
    /\ (exists j, tasks p !! j = Some (Done (Rejected first)))
    /\ promise (all p) = Some (Rejected first)
    /\ List.filter is_output (trace p) = [Stderr first]
    /\ List.filter is_stdout (trace p) = []
    /\ ((forall j e', tasks p !! j = Some (Done (Rejected e')) -> j = i) -> first = e).
Proof.
  intros Hexec Hi.
  destruct (reachable_invariant _ _ _ Hexec) as [_ _ Hp Hf Ho].
  unfold batch_promise in Hp.
  destruct (first_rejection (trace p)) as [first|].
  - exists first. destruct Hf as [j Hj].
    assert (Hout : List.filter is_output (trace p) = [Stderr first]).
    { rewrite Ho, Hp. reflexivity. }
    split; [reflexivity|]. split; [eauto|]. split; [exact Hp|]. split; [exact Hout|].
    split; [rewrite stdout_of_outputs, Hout; reflexivity|].
    intros Honly. specialize (Honly j first Hj). subst j.
    rewrite Hi in Hj. injection Hj as ->. reflexivity.
  - exfalso. rewrite Forall_lookup in Hf. specialize (Hf i _ Hi). discriminate.
Qed.

(** C6. When every call of the batch has returned, in whatever order the
    calls were answered: the batch promise is fulfilled with one record
    per location, the record at index [i] being the one the call for
    [locations[i]] returned (the call whose first request was the one for
    that location), and the handlers have run on that list. *)
Theorem batch_keeps_order (locations : list LatLon)
    (schedule : list (nat * wakeup)) (p : program) :
  exec schedule (main locations) = Some p ->
  (forall t, t ∈ tasks p -> exists r, t = Done (Resolved r)) ->
  exists sunrises,
    promise (all p) = Some (Resolved sunrises)
    /\ length sunrises = length locations
    /\ tasks p = (fun r => Done (Resolved r)) <$> sunrises
    /\ (forall i location,
          locations !! i = Some location ->
          Did i (Fetch (request_url location)) ∈ trace p)
    /\ List.filter is_output (trace p) = handlers (Resolved sunrises).
Proof.
  intros Hexec Hall.
  destruct (reachable_invariant _ _ _ Hexec) as [_ _ Hp Hf Ho].
  destruct (exec_frame numberToString _ _ _ Hexec) as (_ & Hlen & tail & Htrace).
  destruct (all_fulfilled _ Hall) as (sunrises & Hts & Hful & Hu).
  assert (Hfirst : first_rejection (trace p) = None).
  { destruct (first_rejection (trace p)) as [e|]; [|reflexivity].
    destruct Hf as [j Hj]. apply list_elem_of_lookup_2 in Hj.
    destruct (Hall _ Hj) as [r Hr]. discriminate. }
  assert (Hpromise : promise (all p) = Some (Resolved sunrises)).
  { rewrite Hp. unfold batch_promise. rewrite Hfirst, Hu, Hful, mapM_id_Some. reflexivity. }
  exists sunrises. split; [exact Hpromise|]. split; [|split; [exact Hts|split]].
  - rewrite main_tasks, length_replicate in Hlen. rewrite <- Hlen, Hts, length_fmap.
    reflexivity.
  - intros i location Hi. rewrite Htrace. apply elem_of_app. left.
    apply main_requests, Hi.
  - rewrite Ho, Hpromise. reflexivity.
Qed.

(** X1. In a batch, a call that wakes from its retry delay sends its next
    request to the URL of the last location of the batch, whichever
    location the call was made for: [apiUrl] is [baseUrl], and the last
    call of [locations.map] wrote its coordinate there. *)
Theorem retry_requests_last_location (locations : list LatLon) (last : LatLon)
    (schedule : list (nat * wakeup)) (p : program) (i retries : nat) :
  exec schedule (main (locations ++ [last])) = Some p ->
  tasks p !! i = Some (AwaitSleep retries) ->
  exists p',
    step i Timer p = Some p'
    /\ tasks p' = <[i := AwaitFetch retries]> (tasks p)
    /\ trace p' = trace p ++ [Did i (Fetch (request_url last))].
Proof.
  intros Hexec Hi.
  destruct (exec_frame numberToString _ _ _ Hexec) as (Hshared & _ & _).
  rewrite main_shared in Hshared.
  assert (Hhref : Url.href (baseUrl (shared p)) = request_url last).
  { rewrite Hshared. unfold visited. rewrite fold_left_app. simpl.
    apply href_prepare, visited_shaped. }
  unfold index.step. rewrite Hi. simpl. rewrite Hhref. eexists. split; [reflexivity|].
  split; reflexivity.
Qed.

End BatchClaims.

Lemma batch_fails_with_first_error_witness :
  let p := Examples.after Examples.one_fails in
  index.exec Examples.toString_integer Examples.one_fails
    (index.main Examples.toString_integer [Examples.here; Examples.there]) = Some p
  /\ index.tasks p !! 1
     = Some (Done (Rejected (Error "Sunrise API status: INVALID_REQUEST  Day length: 0")))
  /\ index.tasks p !! 0 = Some (Done (Resolved (results Examples.good)))
  /\ exists first,
      index.promise (index.all p) = Some (Rejected first)
      /\ List.filter index.is_output (index.trace p) = [index.Stderr first].
Proof.
  intros p.
  assert (Hexec : index.exec Examples.toString_integer Examples.one_fails
                    (index.main Examples.toString_integer [Examples.here; Examples.there])
                  = Some p) by (vm_compute; reflexivity).
  assert (H1 : index.tasks p !! 1
               = Some (Done (Rejected (Error "Sunrise API status: INVALID_REQUEST  Day length: 0"))))
    by (vm_compute; reflexivity).
  split; [exact Hexec|]. split; [exact H1|]. split; [vm_compute; reflexivity|].
  destruct (batch_fails_with_first_error Examples.toString_integer _ _ _ _ _ Hexec H1)
    as (first & _ & _ & Hp & Ho & _).
  exists first. split; assumption.
Defined.

Lemma batch_keeps_order_witness :
  let p := Examples.after Examples.out_of_order in
  index.exec Examples.toString_integer Examples.out_of_order
    (index.main Examples.toString_integer [Examples.here; Examples.there]) = Some p
  /\ index.tasks p
     = [Done (Resolved (results Examples.good)); Done (Resolved (results Examples.better))]
  /\ exists sunrises,
      index.promise (index.all p) = Some (Resolved sunrises)
      /\ length sunrises = 2
      /\ index.tasks p = (fun r => Done (Resolved r)) <$> sunrises.
Proof.
  intros p.
  assert (Hexec : index.exec Examples.toString_integer Examples.out_of_order
                    (index.main Examples.toString_integer [Examples.here; Examples.there])
                  = Some p) by (vm_compute; reflexivity).
  assert (Htasks : index.tasks p
                   = [Done (Resolved (results Examples.good));
                      Done (Resolved (results Examples.better))])
    by (vm_compute; reflexivity).
  split; [exact Hexec|]. split; [exact Htasks|].
  destruct (batch_keeps_order Examples.toString_integer _ _ _ Hexec)
    as (sunrises & Hp & Hlen & Hts & _).
  { rewrite Htasks. intros t Ht.
    apply elem_of_cons in Ht as [-> | Ht]; [eauto|].
    apply elem_of_cons in Ht as [-> | Ht]; [eauto|].
    apply elem_of_nil in Ht. contradiction. }
  exists sunrises. repeat split; assumption.
Defined.

Lemma retry_requests_last_location_witness :
  let schedule := [(0, Response (Resolved Examples.stale))] in
  let p := Examples.after schedule in
  index.exec Examples.toString_integer schedule
    (index.main Examples.toString_integer ([Examples.here] ++ [Examples.there])) = Some p
  /\ index.tasks p !! 0 = Some (AwaitSleep 1)
  /\ exists p',
      index.step Examples.toString_integer 0 Timer p = Some p'
      /\ index.trace p'
         = index.trace p
           ++ [index.Did 0
                 (Fetch "https://api.sunrise-sunset.org/json?lat=12.0000000&lng=-0.5000000&formatted=0")].
Proof.
  intros schedule p.
  assert (Hexec : index.exec Examples.toString_integer schedule
                    (index.main Examples.toString_integer ([Examples.here] ++ [Examples.there]))
                  = Some p) by (vm_compute; reflexivity).
  assert (Hi : index.tasks p !! 0 = Some (AwaitSleep 1)) by (vm_compute; reflexivity).
  split; [exact Hexec|]. split; [exact Hi|].
  destruct (retry_requests_last_location Examples.toString_integer _ _ _ _ _ _ Hexec Hi)
    as (p' & Hstep & _ & Htrace).
  exists p'. split; [exact Hstep | exact Htrace].
Defined.

(** ** More on one call *)

Section ClientCases.

Variable numberToString : number -> string.

Abbreviation examine := (examine numberToString).
Abbreviation api_error := (api_error numberToString).
Abbreviation loop := (loop numberToString).
Abbreviation get := (get numberToString).
Abbreviation prepare := (prepare numberToString).

(** A response is valid, fatal or transient, and only one of the three. *)
Lemma response_cases (resp : SunriseResponse) :
  (valid resp = true /\ fatal resp = false /\ transient resp = false)
  \/ (valid resp = false /\ fatal resp = true /\ transient resp = false)
  \/ (valid resp = false /\ fatal resp = false /\ transient resp = true).
Proof.
  unfold valid, fatal, transient. destruct resp as [res st]; simpl.
  destruct st, (Number.neq0 (day_length res)); simpl; auto.
Qed.

(** The effects of a call that went through [k] retries. *)
Abbreviation turns := (fun (s : store) (k : nat) =>
  concat (replicate k [Fetch (Url.href (baseUrl s)); Sleep 10])
  ++ [Fetch (Url.href (baseUrl s))]).

(** Every run of the loop: some transient answers, each followed by a
    retry, and then the answer that ends the call, if it has come. *)
Lemma loop_cases (s : store) (api : list (settled SunriseResponse)) :
  forall retries,
    retries <= 5 ->
    exists bad rest,
      api = bad ++ rest
      /\ Forall (fun a => answers transient a = true) bad
      /\ retries + length bad <= 5
      /\ final_retries (loop s retries api) = retries + length bad
      /\ effects (loop s retries api) = turns s (length bad)
      /\ match rest with
         | [] => outcome (loop s retries api) = None
         | Rejected e :: _ => outcome (loop s retries api) = Some (Rejected e)
         | Resolved resp :: _ =>
             (valid resp = true
              /\ outcome (loop s retries api) = Some (Resolved (results resp)))
             \/ (fatal resp = true
                 /\ outcome (loop s retries api) = Some (Rejected (api_error resp)))
             \/ (transient resp = true /\ retries + length bad = 5
                 /\ outcome (loop s retries api) = Some (Rejected (api_error resp)))
         end.
Proof.
  induction api as [|a api IH]; intros retries Hle.
  - exists [], []. simpl. rewrite Nat.add_0_r. repeat split; auto.
  - destruct a as [resp|e].
    2:{ exists [], (Rejected e :: api). simpl. rewrite Nat.add_0_r. repeat split; auto. }
    destruct (response_cases resp) as [(Hv & _ & _) | [(_ & Hf & _) | (_ & _ & Ht)]].
    + exists [], (Resolved resp :: api). simpl.
      rewrite examine_valid by assumption. simpl. rewrite Nat.add_0_r.
      repeat split; auto.
    + exists [], (Resolved resp :: api). simpl.
      rewrite examine_fatal by assumption. simpl. rewrite Nat.add_0_r.
      repeat split; auto.
    + destruct (decide (retries = 5)) as [->|Hne].
      * exists [], (Resolved resp :: api). simpl.
        rewrite examine_transient by assumption. simpl.
        repeat split; auto.
      * destruct (IH (S retries)) as (bad & rest & -> & Hbad & Hlen & Hret & Heff & Hend);
          [lia|].
        exists (Resolved resp :: bad), rest.
        assert (Hretry : examine retries resp = Retry).
        { rewrite examine_transient by assumption.
          destruct (Nat.ltb_spec retries 5); [reflexivity | lia]. }
        change ((Resolved resp :: bad) ++ rest) with (Resolved resp :: (bad ++ rest)).
        rewrite loop_retry by assumption. cbv zeta. cbn [outcome final_retries effects].
        rewrite Hret, Heff. cbn [length].
        split; [reflexivity|]. split; [constructor; assumption|].
        split; [lia|]. split; [lia|]. split; [reflexivity|].
        destruct rest as [|[resp'|e'] rest]; [exact Hend | | exact Hend].
        destruct Hend as [H | [H | (H1 & H2 & H3)]]; auto.
        right. right. repeat split; auto. lia.
Qed.

(** X2. A request that fails in transport (the promise of [httpGetJson]
    is rejected) ends the call at once with that error, however many
    retries are left: after [k <= 5] transient answers and then a
    rejection, [get] is rejected with the same error, with [retries] at
    [k], after [k + 1] requests and [k] timers, and asks for nothing
    more. *)
Theorem get_network_error_not_retried (location : LatLon) (s : store)
    (bad : list (settled SunriseResponse)) (e : JsError)
    (rest : list (settled SunriseResponse)) :
  length bad <= 5 ->
  Forall (fun a => answers transient a = true) bad ->
  outcome (get location s (bad ++ Rejected e :: rest)) = Some (Rejected e)
  /\ final_retries (get location s (bad ++ Rejected e :: rest)) = length bad
  /\ requests (effects (get location s (bad ++ Rejected e :: rest))) = S (length bad)
  /\ delays (effects (get location s (bad ++ Rejected e :: rest))) = length bad.
Proof.
  intros Hlen Hbad. unfold sunriseClient.get.
  generalize (prepare location s). intros s'.
  assert (H : forall retries,
             retries + length bad <= 5 ->
             loop s' retries (bad ++ Rejected e :: rest)
             = mkRun (Some (Rejected e)) (retries + length bad) (turns s' (length bad))).
  { clear Hlen. induction bad as [|a bad IH]; intros retries Hle.
    - simpl. rewrite Nat.add_0_r. reflexivity.
    - apply Forall_cons in Hbad as [Ha Hbad].
      destruct a as [resp|e']; [|discriminate]. simpl in Ha, Hle.
      change ((Resolved resp :: bad) ++ Rejected e :: rest)
        with (Resolved resp :: (bad ++ Rejected e :: rest)).
      rewrite loop_retry.
      2:{ rewrite examine_transient by assumption.
          destruct (Nat.ltb_spec retries 5); [reflexivity | lia]. }
      cbv zeta. rewrite IH by (assumption || lia). simpl. f_equal. lia. }
  rewrite (H 0) by lia. cbn [outcome final_retries effects].
  rewrite requests_turns, delays_turns. auto.
Qed.

(** X3. [get] returns nothing but the record of a response that is [OK]
    with a day length other than zero: when the call is fulfilled with
    [r], the answers begin with at most five transient responses followed
    by such a response, and [r] is its [results]. In particular [r] never
    has a zero day length. *)
Theorem get_returns_only_valid (location : LatLon) (s : store)
    (api : list (settled SunriseResponse)) (r : SunriseResult) :
  outcome (get location s api) = Some (Resolved r) ->
  Number.neq0 (day_length r) = true
  /\ exists bad resp rest,
      api = bad ++ Resolved resp :: rest
      /\ Forall (fun a => answers transient a = true) bad
      /\ length bad <= 5
      /\ status resp = OK
      /\ r = results resp.
Proof.
  unfold sunriseClient.get. intros Hout.
  destruct (loop_cases (prepare location s) api 0) as (bad & rest & -> & Hbad & Hlen & _ & _ & Hend);
    [lia|].
  destruct rest as [|[resp|e] rest]; rewrite Hout in Hend; try discriminate.
  destruct Hend as [(Hv & [= ->]) | [(_ & [=]) | (_ & _ & [=])]].
  unfold valid in Hv. apply andb_true_iff in Hv as [Hst Hnz].
  apply bool_decide_eq_true in Hst.
  split; [exact Hnz|]. exists bad, resp, rest. repeat split; auto.
Qed.

(** X4. Whatever the answers, and whether or not the call has settled:
    [get] has sent one request more than it has retried, has armed one
    timer of 10 milliseconds per retry, and has retried at most five
    times; so never more than six requests and never more than 50
    milliseconds of delay. *)
Theorem get_accounting (location : LatLon) (s : store)
    (api : list (settled SunriseResponse)) :
  final_retries (get location s api) <= 5
  /\ requests (effects (get location s api)) = S (final_retries (get location s api))
  /\ delays (effects (get location s api)) = final_retries (get location s api)
  /\ slept (effects (get location s api))
     = (10 * Z.of_nat (final_retries (get location s api)))%Z
  /\ (slept (effects (get location s api)) <= 50)%Z.
Proof.
  unfold sunriseClient.get.
  destruct (loop_cases (prepare location s) api 0) as (bad & rest & _ & _ & Hlen & Hret & Heff & _);
    [lia|].
  rewrite Heff, Hret, requests_turns, delays_turns, slept_turns. simpl.
  repeat split; lia.
Qed.

(** X5. [get] fails in three ways only. When the call is rejected with
    [e], the answers begin with transient responses, each retried, and
    then: a rejected request, whose error [e] is; or a response with
    status [INVALID_REQUEST] or [INVALID_DATE]; or a sixth transient
    response; and in the last two cases [e] is the error of line 124 for
    that response. *)
Theorem get_failure_causes (location : LatLon) (s : store)
    (api : list (settled SunriseResponse)) (e : JsError) :
  outcome (get location s api) = Some (Rejected e) ->
  exists bad rest,
    Forall (fun a => answers transient a = true) bad
    /\ length bad <= 5
    /\ (api = bad ++ Rejected e :: rest
        \/ (exists resp,
              api = bad ++ Resolved resp :: rest /\ e = api_error resp
              /\ (fatal resp = true \/ (transient resp = true /\ length bad = 5)))).
Proof.
  unfold sunriseClient.get. intros Hout.
  destruct (loop_cases (prepare location s) api 0) as (bad & rest & -> & Hbad & Hlen & _ & _ & Hend);
    [lia|].
  destruct rest as [|[resp|e'] rest]; rewrite Hout in Hend; try discriminate.
  - exists bad, rest. split; [exact Hbad|]. split; [lia|]. right. exists resp.
    destruct Hend as [(_ & [=]) | [(Hf & [= ->]) | (Ht & H5 & [= ->])]]; auto.
  - injection Hend as ->. exists bad, rest. auto.
Qed.

End ClientCases.

Lemma get_network_error_not_retried_witness :
  let bad := replicate 2 (Resolved Examples.stale) in
  let e := Error "socket hang up" in
  length bad <= 5
  /\ Forall (fun a => answers transient a = true) bad
  /\ outcome (get Examples.toString_integer Examples.here module_store
                (bad ++ [Rejected e; Resolved Examples.good]))
     = Some (Rejected e)
  /\ requests (effects (get Examples.toString_integer Examples.here module_store
                          (bad ++ [Rejected e; Resolved Examples.good]))) = 3.
Proof.
  intros bad e.
  assert (H1 : length bad <= 5) by (simpl; lia).
  assert (H2 : Forall (fun a => answers transient a = true) bad) by (repeat constructor).
  split; [exact H1|]. split; [exact H2|].
  destruct (get_network_error_not_retried Examples.toString_integer Examples.here module_store
              bad e [Resolved Examples.good] H1 H2) as (Hout & _ & Hreq & _).
  split; [exact Hout | exact Hreq].
Defined.

Lemma get_returns_only_valid_witness :
  let api := [Resolved Examples.stale; Resolved Examples.good; Resolved Examples.invalid] in
  outcome (get Examples.toString_integer Examples.here module_store api)
  = Some (Resolved (results Examples.good))
  /\ Number.neq0 (day_length (results Examples.good)) = true.
Proof.
  intros api.
  assert (H : outcome (get Examples.toString_integer Examples.here module_store api)
              = Some (Resolved (results Examples.good))) by reflexivity.
  split; [exact H|].
  exact (proj1 (get_returns_only_valid Examples.toString_integer Examples.here module_store
                  api _ H)).
Defined.

Lemma get_failure_causes_witness :
  let api := [Resolved Examples.stale; Resolved Examples.invalid] in
  let e := Error "Sunrise API status: INVALID_REQUEST  Day length: 0" in
  outcome (get Examples.toString_integer Examples.here module_store api) = Some (Rejected e)
  /\ exists bad rest,
      Forall (fun a => answers transient a = true) bad
      /\ length bad <= 5
      /\ (api = bad ++ Rejected e :: rest
          \/ (exists resp,
                api = bad ++ Resolved resp :: rest
                /\ e = api_error Examples.toString_integer resp
                /\ (fatal resp = true \/ (transient resp = true /\ length bad = 5)))).
Proof.
  intros api e.
  assert (H : outcome (get Examples.toString_integer Examples.here module_store api)
              = Some (Rejected e)) by reflexivity.
  split; [exact H|].
  exact (get_failure_causes Examples.toString_integer Examples.here module_store api e H).
Defined.

(** ** httpGetJson *)

Section HttpProperties.

Variable numberToString : number -> string.
Variable T : Type.
Variable JSON_parse : string -> JsError + T.

Abbreviation on_event := (on_event numberToString T JSON_parse).
Abbreviation httpGetJson := (httpGetJson numberToString T JSON_parse).
Abbreviation parsed := (parsed T JSON_parse).
Abbreviation status_error := (status_error numberToString).

Lemma string_app_nil_r (s : string) : s +:+ "" = s.
Proof.
  induction s as [|c s IH]; [reflexivity|].
  change (String c (s +:+ "") = String c s). f_equal. exact IH.
Qed.

Lemma string_app_assoc (s1 s2 s3 : string) : (s1 +:+ s2) +:+ s3 = s1 +:+ s2 +:+ s3.
Proof.
  induction s1 as [|c s1 IH]; [reflexivity|].
  change (String c ((s1 +:+ s2) +:+ s3) = String c (s1 +:+ s2 +:+ s3)). f_equal. exact IH.
Qed.

(** A settled promise stays as it is. *)
Lemma on_event_settled (q : request T) (ev : http_event) (c : settled T) :
  result q = Some c -> result (on_event q ev) = Some c.
Proof.
  intros Hq. unfold sunriseClient.on_event, settle.
  destruct ev as [statusCode|chunk| |err], (stage q) as [|body|];
    cbn [result stage]; rewrite ?Hq; try reflexivity; try assumption.
  destruct (bad_status statusCode); reflexivity.
Qed.

Lemma events_settled (events : list http_event) :
  forall (q : request T) (c : settled T),
    result q = Some c -> result (fold_left on_event events q) = Some c.
Proof.
  induction events as [|ev events IH]; intros q c Hq; simpl; [exact Hq|].
  apply IH, on_event_settled, Hq.
Qed.

(** The chunks are appended to the body in the order they come. *)
Lemma events_data (chunks : list string) :
  forall (body : string) (r : option (settled T)),
    fold_left on_event (Data <$> chunks) {| stage := Receiving body; result := r |}
    = {| stage := Receiving (body +:+ joined chunks); result := r |}.
Proof.
  induction chunks as [|chunk chunks IH]; intros body r.
  - simpl. rewrite string_app_nil_r. reflexivity.
  - rewrite fmap_cons. cbn [fold_left].
    change (on_event {| stage := Receiving body; result := r |} (Data chunk))
      with {| stage := Receiving (body +:+ chunk); result := r |}.
    rewrite IH, string_app_assoc. reflexivity.
Qed.

(** The status test on a whole number. *)
Lemma bad_status_integer (z : Z) :
  bad_status (Some (Number.of_Z z)) = true <-> ~ (200 <= z < 300)%Z.
Proof.
  unfold bad_status, Number.ltb, Number.geb.
  destruct z as [|p|p]; cbn -[Z.compare Z.mul Z.pow].
  - split; [lia | reflexivity].
  - unfold Number.compare_scaled. cbn -[Z.compare].
    rewrite !Z.mul_1_r.
    destruct (Z.compare_spec (Z.pos p) 200), (Z.compare_spec (Z.pos p) 300);
      cbn; split; intros; try reflexivity; try discriminate; lia.
  - unfold Number.compare_scaled. cbn -[Z.compare].
    rewrite !Z.mul_1_r.
    destruct (Z.compare_spec (Z.neg p) 200), (Z.compare_spec (Z.neg p) 300);
      cbn; split; intros; try reflexivity; try discriminate; lia.
Qed.

Lemma http_bad_status (statusCode : option number) (events : list http_event) :
  bad_status statusCode = true ->
  httpGetJson (Responded statusCode :: events) = Some (Rejected (status_error statusCode)).
Proof.
  intros Hbad. unfold sunriseClient.httpGetJson. simpl.
  apply events_settled. unfold sunriseClient.on_event. cbn [stage result].
  rewrite Hbad. reflexivity.
Qed.

(** X6. A response whose status code is missing or outside 200..299
    rejects the promise of [httpGetJson] with [Error("statusCode=...")]
    and attaches no handler to the response: whatever the request reports
    afterwards (chunks, the end of the body, an error), the body is not
    parsed and the promise keeps this error. On whole numbers the test
    rejects exactly the codes outside 200..299. *)
Theorem httpGetJson_rejects_bad_status (statusCode : option number)
    (events : list http_event) :
  bad_status statusCode = true ->
  httpGetJson (Responded statusCode :: events) = Some (Rejected (status_error statusCode))
  /\ (forall z, bad_status (Some (Number.of_Z z)) = true <-> ~ (200 <= z < 300)%Z)
  /\ bad_status None = true.
Proof.
  intros Hbad. split; [apply http_bad_status, Hbad|].
  split; [apply bad_status_integer | reflexivity].
Qed.

(** X7. After a response with a good status, the promise of
    [httpGetJson] settles at the end of the body with [JSON.parse] of the
    chunks put together in order of arrival (fulfilled with the value, or
    rejected with the parse error); how the body was cut into chunks makes
    no difference, and what the request reports after the end changes
    nothing. *)
Theorem httpGetJson_parses_whole_body (statusCode : option number)
    (chunks : list string) (events : list http_event) :
  bad_status statusCode = false ->
  httpGetJson (Responded statusCode :: (Data <$> chunks) ++ Ended :: events)
  = Some (parsed (joined chunks))
  /\ (forall chunks',
        joined chunks' = joined chunks ->
        httpGetJson (Responded statusCode :: (Data <$> chunks') ++ Ended :: events)
        = httpGetJson (Responded statusCode :: (Data <$> chunks) ++ Ended :: events)).
Proof.
  intros Hgood.
  assert (H : forall l,
             httpGetJson (Responded statusCode :: (Data <$> l) ++ Ended :: events)
             = Some (parsed (joined l))).
  { intros l. unfold sunriseClient.httpGetJson. cbn [fold_left].
    assert (Hfirst : on_event {| stage := Sent; result := None |} (Responded statusCode)
                     = {| stage := Receiving ""; result := None |}).
    { unfold sunriseClient.on_event. cbn [stage result]. rewrite Hgood. reflexivity. }
    rewrite Hfirst, fold_left_app, events_data. cbn [fold_left].
    apply events_settled. reflexivity. }
  split; [apply H|]. intros chunks' Hsame. rewrite !H, Hsame. reflexivity.
Qed.

(** The promise is fulfilled only from the ["end"] handler. *)
Lemma on_event_resolved (q : request T) (ev : http_event) (v : T) :
  result (on_event q ev) = Some (Resolved v) ->
  result q = Some (Resolved v)
  \/ exists body, stage q = Receiving body /\ JSON_parse body = inr v.
Proof.
  unfold sunriseClient.on_event, settle. intros H.
  destruct ev as [statusCode|chunk| |err], (stage q) as [|body|] eqn:Hst;
    try (left; exact H).
  - destruct (bad_status statusCode); [|left; exact H].
    cbn [result stage] in H. destruct (result q); [left; exact H | discriminate].
  - destruct (result q) eqn:Hr; [left; congruence|].
    cbn [result] in H. injection H as H. unfold sunriseClient.parsed in H.
    destruct (JSON_parse body) as [e|v'] eqn:Hp; [discriminate|].
    injection H as ->. right. eauto.
  - destruct (result q) eqn:Hr; [left; congruence | discriminate].
  - destruct (result q) eqn:Hr; [left; congruence | discriminate].
  - destruct (result q) eqn:Hr; [left; congruence | discriminate].
Qed.

(** The handlers are attached only by a response with a good status. *)
Lemma on_event_receiving (q : request T) (ev : http_event) (body : string) :
  stage (on_event q ev) = Receiving body ->
  (exists body0, stage q = Receiving body0)
  \/ exists statusCode, ev = Responded statusCode /\ bad_status statusCode = false.
Proof.
  unfold sunriseClient.on_event, settle. intros H.
  destruct ev as [statusCode|chunk| |err], (stage q) as [|body0|] eqn:Hst;
    try (left; eauto; fail); try (rewrite Hst in H; discriminate).
  - destruct (bad_status statusCode) eqn:Hb; [|right; eauto].
    cbn [result stage] in H. destruct (result q); discriminate.
  - destruct (result q); cbn [stage] in H; rewrite ?Hst in H; discriminate.
  - destruct (result q); cbn [stage] in H; rewrite ?Hst in H; discriminate.
Qed.

Lemma events_resolved (events : list http_event) (v : T) :
  forall q : request T,
    result (fold_left on_event events q) = Some (Resolved v) ->
    result q = Some (Resolved v)
    \/ (exists body, JSON_parse body = inr v)
       /\ ((exists body, stage q = Receiving body)
           \/ exists statusCode, Responded statusCode ∈ events /\ bad_status statusCode = false).
Proof.
  induction events as [|ev events IH]; intros q Hres; simpl in Hres; [left; exact Hres|].
  destruct (IH _ Hres) as [Hq | [Hparse Hstage]].
  - destruct (on_event_resolved _ _ _ Hq) as [H | (body & Hst & Hp)]; [left; exact H|].
    right. split; eauto.
  - right. split; [exact Hparse|].
    destruct Hstage as [[body Hbody] | (statusCode & Hin & Hgood)].
    + destruct (on_event_receiving _ _ _ Hbody) as [H | (statusCode & -> & Hgood)];
        [left; exact H|].
      right. exists statusCode. split; [left | exact Hgood].
    + right. exists statusCode. split; [right; exact Hin | exact Hgood].
Qed.

(** X8. The promise of [httpGetJson] is fulfilled only with a value that
    [JSON.parse] returned, and only when the request had a response with
    a status code in 200..299: not on a bad status, not on a parse error,
    not on an error of the request. *)
Theorem httpGetJson_fulfilled_only_parsed (events : list http_event) (v : T) :
  httpGetJson events = Some (Resolved v) ->
  (exists body, JSON_parse body = inr v)
  /\ exists statusCode, Responded statusCode ∈ events /\ bad_status statusCode = false.
Proof.
  unfold sunriseClient.httpGetJson. intros Hres.
  destruct (events_resolved _ _ _ Hres) as [Hq | [Hparse [[body Hst] | Hgood]]];
    try discriminate.
  split; assumption.
Qed.

(** X18. [httpGetJson] sets no time limit: after a response with a good
    status, chunks alone never settle its promise; as long as the request
    reports neither the end of the body nor an error, the promise is
    pending, however much of the body has arrived. *)
Theorem httpGetJson_pending_without_end (statusCode : option number)
    (chunks : list string) :
  bad_status statusCode = false ->
  httpGetJson (Responded statusCode :: (Data <$> chunks)) = None.
Proof.
  intros Hgood. unfold sunriseClient.httpGetJson. cbn [fold_left].
  assert (Hfirst : on_event {| stage := Sent; result := None |} (Responded statusCode)
                   = {| stage := Receiving ""; result := None |}).
  { unfold sunriseClient.on_event. cbn [stage result]. rewrite Hgood. reflexivity. }
  rewrite Hfirst, events_data. reflexivity.
Qed.

End HttpProperties.

Section HttpAndGet.

Variable numberToString : number -> string.
Variable JSON_parse : string -> JsError + SunriseResponse.

(** X9. An HTTP status outside 200..299 is not retried: when the response
    to the first request of [get] has such a status, [httpGetJson]
    rejects, and [get] fails with [Error("statusCode=...")] after that one
    request, with no timer, although a response with status
    [UNKNOWN_ERROR] in its body would have been retried. *)
Theorem get_http_status_not_retried (location : LatLon) (s : store)
    (statusCode : option number) (events : list http_event)
    (api : list (settled SunriseResponse)) :
  bad_status statusCode = true ->
  exists answer,
    httpGetJson numberToString SunriseResponse JSON_parse (Responded statusCode :: events)
    = Some answer
    /\ outcome (get numberToString location s (answer :: api))
       = Some (Rejected (status_error numberToString statusCode))
    /\ final_retries (get numberToString location s (answer :: api)) = 0
    /\ effects (get numberToString location s (answer :: api))
       = [Fetch (Url.href (baseUrl (prepare numberToString location s)))].
Proof.
  intros Hbad. exists (Rejected (status_error numberToString statusCode)).
  split; [apply http_bad_status, Hbad|]. repeat split.
Qed.

End HttpAndGet.

(** ** More on the batch *)

Section BatchBounds.

Import index.

Variable numberToString : number -> string.

Abbreviation main := (main numberToString).
Abbreviation step := (step numberToString).
Abbreviation exec := (exec numberToString).
Abbreviation request_url := (request_url numberToString).

Lemma total_insert (f : task -> nat) (ts : list task) :
  forall i t t',
    ts !! i = Some t ->
    total f (<[i := t']> ts) + f t = total f ts + f t'.
Proof.
  induction ts as [|t0 ts IH]; intros [|i] t t' Hi; simpl in *; try discriminate.
  - injection Hi as ->. lia.
  - specialize (IH i t t' Hi). lia.
Qed.

Lemma total_replicate (f : task -> nat) (n : nat) (t : task) :
  total f (replicate n t) = n * f t.
Proof.
  induction n as [|n IH]; simpl; [reflexivity | rewrite IH; reflexivity].
Qed.

Lemma sent_app (tr1 tr2 : list event) : sent (tr1 ++ tr2) = sent tr1 + sent tr2.
Proof.
  induction tr1 as [|ev tr1 IH]; simpl; [reflexivity|].
  destruct ev as [i [url|millis]|i c|v|e]; simpl; rewrite IH; reflexivity.
Qed.

Lemma sent_handlers (st : option (settled (list SunriseResult))) :
  sent (from_option handlers [] st) = 0.
Proof.
  destruct st as [[sunrises|e]|]; simpl; try reflexivity.
  destruct (findEarliestSunrise sunrises); reflexivity.
Qed.

Lemma sent_notify (i : nat) (c : settled SunriseResult) (p : program) :
  tasks (notify i c p) = tasks p /\ sent (trace (notify i c p)) = sent (trace p).
Proof.
  unfold notify. cbn [tasks trace]. split; [reflexivity|].
  rewrite sent_app. simpl.
  destruct (promise (all p)); simpl; [lia|]. rewrite sent_handlers. lia.
Qed.

(** One step uses up one wakeup of the budget, and a request only against
    the credit. *)
Lemma step_budget (i : nat) (w : wakeup) (p p' : program) :
  step i w p = Some p' ->
  S (total budget (tasks p')) <= total budget (tasks p)
  /\ sent (trace p') + total credit (tasks p') <= sent (trace p) + total credit (tasks p).
Proof.
  intros Hstep. unfold index.step in Hstep.
  destruct (tasks p !! i) as [t|] eqn:Hi; simpl in Hstep; [|discriminate].
  pose proof (fun t' => total_insert budget (tasks p) i t t' Hi) as Hb.
  pose proof (fun t' => total_insert credit (tasks p) i t t' Hi) as Hc.
  destruct t as [retries|retries|c], w as [[resp|e]|]; simpl in Hstep; try discriminate.
  - unfold examine in Hstep.
    destruct (bool_decide (status resp = OK) && Number.neq0 (day_length (results resp))).
    + injection Hstep as <-.
      destruct (sent_notify i (Resolved (results resp))
                  {| shared := shared p;
                     tasks := <[i := Done (Resolved (results resp))]> (tasks p);
                     all := all p; trace := trace p ++ [] |}) as [-> ->].
      cbn [tasks trace]. rewrite app_nil_r.
      specialize (Hb (Done (Resolved (results resp)))).
      specialize (Hc (Done (Resolved (results resp)))). simpl in Hb, Hc. lia.
    + destruct (Nat.ltb_spec retries 5); simpl in Hstep.
      * destruct (bool_decide (status resp = OK) || bool_decide (status resp = UNKNOWN_ERROR));
          simpl in Hstep; injection Hstep as <-.
        -- cbn [tasks trace]. rewrite sent_app. simpl.
           specialize (Hb (AwaitSleep (S retries))).
           specialize (Hc (AwaitSleep (S retries))). simpl in Hb, Hc. lia.
        -- match goal with
           | |- context [notify i ?c ?q] => destruct (sent_notify i c q) as [-> ->]
           end.
           cbn [tasks trace]. rewrite app_nil_r.
           match goal with
           | |- context [<[i := ?t']> (tasks p)] => specialize (Hb t'); specialize (Hc t')
           end.
           simpl in Hb, Hc. lia.
      * injection Hstep as <-.
        match goal with
        | |- context [notify i ?c ?q] => destruct (sent_notify i c q) as [-> ->]
        end.
        cbn [tasks trace]. rewrite app_nil_r.
        match goal with
        | |- context [<[i := ?t']> (tasks p)] => specialize (Hb t'); specialize (Hc t')
        end.
        simpl in Hb, Hc. lia.
  - injection Hstep as <-.
    destruct (sent_notify i (Rejected e)
                {| shared := shared p; tasks := <[i := Done (Rejected e)]> (tasks p);
                   all := all p; trace := trace p ++ [] |}) as [-> ->].
    cbn [tasks trace]. rewrite app_nil_r.
    specialize (Hb (Done (Rejected e))). specialize (Hc (Done (Rejected e))).
    simpl in Hb, Hc. lia.
  - injection Hstep as <-. cbn [tasks trace]. rewrite sent_app. simpl.
    specialize (Hb (AwaitFetch retries)). specialize (Hc (AwaitFetch retries)).
    simpl in Hb, Hc. lia.
Qed.

Lemma exec_budget (schedule : list (nat * wakeup)) :
  forall p p',
    exec schedule p = Some p' ->
    length schedule + total budget (tasks p') <= total budget (tasks p)
    /\ sent (trace p') + total credit (tasks p') <= sent (trace p) + total credit (tasks p).
Proof.
  induction schedule as [|[i w] schedule IH]; intros p p' Hexec; simpl in Hexec.
  - injection Hexec as <-. simpl. lia.
  - destruct (step i w p) as [p1|] eqn:Hstep; simpl in Hexec; [|discriminate].
    destruct (step_budget _ _ _ _ Hstep). destruct (IH _ _ Hexec). simpl. lia.
Qed.

(** The trace of the synchronous part, call by call. *)
Lemma spawn_trace (locations : list LatLon) :
  forall i s,
    shaped s ->
    snd (index.spawn numberToString i locations s)
    = imap (fun k location => Did (i + k) (Fetch (request_url location))) locations.
Proof.
  induction locations as [|loc locations IH]; intros i s Hs; [reflexivity|].
  rewrite spawn_cons, imap_cons.
  specialize (IH (S i) (prepare numberToString loc s)).
  destruct (index.spawn numberToString (S i) locations (prepare numberToString loc s))
    as [[s' ts] evs].
  cbn [snd] in *. rewrite Nat.add_0_r, href_prepare by assumption. f_equal.
  rewrite IH.
  - apply imap_ext. intros k location _. simpl. f_equal. lia.
  - split.
    + rewrite prepare_shaped by assumption. reflexivity.
    + right. rewrite prepare_shaped by assumption. eauto.
Qed.

Lemma sent_requests (locations : list LatLon) :
  forall i, sent (imap (fun k location => Did (i + k) (Fetch (request_url location))) locations)
            = length locations.
Proof.
  induction locations as [|loc locations IH]; intros i; [reflexivity|].
  rewrite imap_cons. simpl. f_equal.
  rewrite <- (IH (S i)). f_equal. apply imap_ext. intros k location _. simpl. f_equal. lia.
Qed.

Lemma sent_first_requests (locations : list LatLon) :
  sent (imap (fun i location => Did i (Fetch (request_url location))) locations)
  = length locations.
Proof. exact (sent_requests locations 0). Qed.

Lemma main_trace (locations : list LatLon) :
  trace (main locations)
  = imap (fun i location => Did i (Fetch (request_url location))) locations
    ++ from_option handlers [] (promise (all_init (length locations))).
Proof.
  pose proof (spawn_trace locations 0 module_store (visited_shaped numberToString [])) as Htr.
  pose proof (spawn_tasks numberToString locations 0 module_store) as Hts.
  unfold index.main.
  destruct (index.spawn numberToString 0 locations module_store) as [[s ts] evs].
  cbn [fst snd trace] in *. subst. rewrite length_replicate. reflexivity.
Qed.

(** X10. Every run of the batch ends, and within bounds: a schedule that
    the program can follow has at most 11 wakeups per location (six
    responses and five timers), and the program sends at most six
    requests per location, however the calls interleave. *)
Theorem batch_terminates (locations : list LatLon) (schedule : list (nat * wakeup))
    (p : program) :
  exec schedule (main locations) = Some p ->
  length schedule <= 11 * length locations
  /\ sent (trace p) <= 6 * length locations.
Proof.
  intros Hexec. destruct (exec_budget _ _ _ Hexec) as [Hb Hc].
  rewrite main_tasks, !total_replicate in *.
  rewrite main_trace, sent_app, sent_handlers, sent_first_requests in Hc.
  simpl in Hb, Hc. lia.
Qed.

(** X11. The synchronous part of the program sends one request per
    location, in the order of the locations and each with the coordinate
    of its own location, and leaves every call suspended at its first
    [await]: all requests of the batch are handed to the agent before any
    answer is looked at. *)
Theorem batch_starts_all_requests (first : LatLon) (others : list LatLon) :
  trace (main (first :: others))
  = imap (fun i location => Did i (Fetch (request_url location))) (first :: others)
  /\ tasks (main (first :: others)) = replicate (S (length others)) (AwaitFetch 0)
  /\ promise (all (main (first :: others))) = None.
Proof.
  split; [|split].
  - rewrite main_trace. simpl. rewrite app_nil_r. reflexivity.
  - apply main_tasks.
  - pose proof (spawn_tasks numberToString (first :: others) 0 module_store) as Hts.
    unfold index.main.
    destruct (index.spawn numberToString 0 (first :: others) module_store) as [[s ts] evs].
    cbn [fst snd all] in *. subst ts. rewrite length_replicate. reflexivity.
Qed.

(** Once the batch promise is settled, a step leaves it and the console
    as they are. *)
Lemma step_settled (i : nat) (w : wakeup) (p p' : program)
    (st : settled (list SunriseResult)) :
  promise (all p) = Some st ->
  step i w p = Some p' ->
  promise (all p') = Some st
  /\ List.filter is_output (trace p') = List.filter is_output (trace p).
Proof.
  intros Hst Hstep. unfold index.step in Hstep.
  destruct (tasks p !! i) as [t|]; simpl in Hstep; [|discriminate].
  destruct (resume numberToString (shared p) t w) as [[t' effs]|]; simpl in Hstep;
    [|discriminate].
  injection Hstep as <-.
  destruct t' as [retries|retries|[r|e]]; unfold notify, all_resolve_element, all_reject;
    cbn [all trace promise]; rewrite ?Hst; cbn [promise];
    rewrite ?List.filter_app, ?outputs_did; simpl; rewrite ?app_nil_r; auto.
Qed.

(** X12. The batch settles once. From the moment the promise of
    [Promise.all] is fulfilled or rejected, whatever the calls still
    running do (they are not cancelled and may return or fail later),
    the promise keeps its state and nothing more is written to the
    console. *)
Theorem batch_settles_once (schedule : list (nat * wakeup)) (p p' : program)
    (st : settled (list SunriseResult)) :
  promise (all p) = Some st ->
  exec schedule p = Some p' ->
  promise (all p') = Some st
  /\ List.filter is_output (trace p') = List.filter is_output (trace p).
Proof.
  revert p. induction schedule as [|[i w] schedule IH]; intros p Hst Hexec; simpl in Hexec.
  - injection Hexec as <-. auto.
  - destruct (step i w p) as [p1|] eqn:Hstep; simpl in Hexec; [|discriminate].
    destruct (step_settled _ _ _ _ _ Hst Hstep) as [Hst1 Hout1].
    destruct (IH _ Hst1 Hexec) as [Hst' Hout']. split; congruence.
Qed.

End BatchBounds.

(** ** Calls in a batch *)

Section BatchCalls.

Import index.

Variable numberToString : number -> string.

Abbreviation main := (main numberToString).
Abbreviation step := (step numberToString).
Abbreviation exec := (exec numberToString).
Abbreviation loop := (loop numberToString).
Abbreviation get := (get numberToString).

(** What a step does to the list of tasks. *)
Lemma step_tasks (i : nat) (w : wakeup) (p p' : program) :
  step i w p = Some p' ->
  exists t t' effs,
    tasks p !! i = Some t
    /\ resume numberToString (shared p) t w = Some (t', effs)
    /\ tasks p' = <[i := t']> (tasks p).
Proof.
  intros Hstep. unfold index.step in Hstep.
  destruct (tasks p !! i) as [t|]; simpl in Hstep; [|discriminate].
  destruct (resume numberToString (shared p) t w) as [[t' effs]|] eqn:Hres;
    simpl in Hstep; [|discriminate].
  injection Hstep as <-. exists t, t', effs.
  split; [reflexivity|]. split; [exact Hres|].
  destruct t' as [retries|retries|c]; reflexivity.
Qed.

(** A call goes through the schedule as the loop goes through the answers
    the schedule delivers to it; the other calls make no difference. *)
Lemma exec_call (s : store) (i : nat) (schedule : list (nat * wakeup)) :
  forall p p' t,
    exec schedule p = Some p' ->
    tasks p !! i = Some t ->
    exists t',
      tasks p' !! i = Some t'
      /\ match t with
         | AwaitFetch retries | AwaitSleep retries =>
             agrees t' (loop s retries (answers_to i schedule))
         | Done c => t' = Done c
         end.
Proof.
  induction schedule as [|[j w] schedule IH]; intros p p' t Hexec Hi; simpl in Hexec.
  - injection Hexec as <-. exists t. split; [exact Hi|].
    destruct t; simpl; auto.
  - destruct (step j w p) as [p1|] eqn:Hstep; simpl in Hexec; [|discriminate].
    destruct (step_tasks _ _ _ _ Hstep) as (t0 & t1 & effs & Hj & Hres & Htasks).
    destruct (decide (j = i)) as [->|Hne].
    + rewrite Hi in Hj. injection Hj as <-.
      assert (Hi1 : tasks p1 !! i = Some t1).
      { rewrite Htasks. apply list_lookup_insert_eq. eapply lookup_lt_Some. exact Hi. }
      destruct (IH _ _ _ Hexec Hi1) as (t' & Ht' & Hrel). exists t'. split; [exact Ht'|].
      destruct t as [retries|retries|c], w as [[resp|e]|]; simpl in Hres; try discriminate.
      * cbn [answers_to]. rewrite decide_True by reflexivity.
        destruct (examine numberToString retries resp) as [r| |e] eqn:Hex;
          injection Hres as <- <-.
        -- subst t'. simpl. rewrite Hex. reflexivity.
        -- rewrite loop_retry by assumption. destruct t'; exact Hrel.
        -- subst t'. simpl. rewrite Hex. reflexivity.
      * cbn [answers_to]. rewrite decide_True by reflexivity.
        injection Hres as <- <-. subst t'. reflexivity.
      * injection Hres as <- <-. exact Hrel.
    + assert (Hi1 : tasks p1 !! i = Some t).
      { rewrite Htasks, list_lookup_insert_ne by assumption. exact Hi. }
      destruct (IH _ _ _ Hexec Hi1) as (t' & Ht' & Hrel). exists t'. split; [exact Ht'|].
      assert (Hans : answers_to i ((j, w) :: schedule) = answers_to i schedule).
      { destruct w as [answer|]; simpl; [|reflexivity].
        rewrite decide_False by assumption. reflexivity. }
      rewrite Hans. exact Hrel.
Qed.

(** X13. In a batch, under every schedule, the call for [locations[i]]
    stands exactly where a call of [get] alone stands on the answers the
    schedule delivered to that call: settled in the same way, or suspended
    with the same value of [retries]. The calls share no retry budget and
    the answers to one call never decide another call's outcome. *)
Theorem batch_call_as_alone (locations : list LatLon) (schedule : list (nat * wakeup))
    (p : program) (i : nat) (location : LatLon) (s : store) :
  exec schedule (main locations) = Some p ->
  locations !! i = Some location ->
  exists t,
    tasks p !! i = Some t
    /\ agrees t (get location s (answers_to i schedule)).
Proof.
  intros Hexec Hi.
  assert (Hstart : tasks (main locations) !! i = Some (AwaitFetch 0)).
  { rewrite main_tasks. apply lookup_replicate. split; [reflexivity|].
    eapply lookup_lt_Some. exact Hi. }
  destruct (exec_call (prepare numberToString location s) i schedule _ _ _ Hexec Hstart)
    as (t & Ht & Hrel).
  exists t. split; [exact Ht | exact Hrel].
Qed.

(** A record a call of the batch returned has a day length other than zero. *)
Lemma batch_records_valid (locations : list LatLon) (schedule : list (nat * wakeup))
    (p : program) (i : nat) (r : SunriseResult) :
  exec schedule (main locations) = Some p ->
  tasks p !! i = Some (Done (Resolved r)) ->
  Number.neq0 (day_length r) = true.
Proof.
  intros Hexec Hi.
  assert (Hstart : tasks (main locations) !! i = Some (AwaitFetch 0)).
  { rewrite main_tasks. apply lookup_replicate. split; [reflexivity|].
    apply lookup_lt_Some in Hi.
    destruct (exec_frame numberToString _ _ _ Hexec) as (_ & Hlen & _).
    rewrite main_tasks, length_replicate in Hlen. lia. }
  destruct (exec_call module_store i schedule _ _ _ Hexec Hstart) as (t & Ht & Hrel).
  rewrite Hi in Ht. injection Ht as <-. simpl in Hrel.
  destruct (loop_cases numberToString module_store (answers_to i schedule) 0)
    as (bad & rest & _ & _ & _ & _ & _ & Hend); [lia|].
  destruct rest as [|[resp|e] rest]; rewrite Hrel in Hend; try discriminate.
  destruct Hend as [(Hv & [= ->]) | [(_ & [=]) | (_ & _ & [=])]].
  unfold valid in Hv. apply andb_true_iff in Hv as [_ Hnz]. exact Hnz.
Qed.

(** X14. When every call of a batch of at least one location has
    returned, the program has written exactly two values to the console,
    both to standard output: one of the records returned, with a sunrise
    that no returned record's sunrise is below, and then the day length of
    that record, which is not zero. *)
Theorem batch_prints_earliest (locations : list LatLon) (schedule : list (nat * wakeup))
    (p : program) :
  exec schedule (main locations) = Some p ->
  locations <> [] ->
  (forall t, t ∈ tasks p -> exists r, t = Done (Resolved r)) ->
  exists earliest j,
    tasks p !! j = Some (Done (Resolved earliest))
    /\ (forall k r, tasks p !! k = Some (Done (Resolved r)) ->
                    String.ltb (sunrise r) (sunrise earliest) = false)
    /\ Number.neq0 (day_length earliest) = true
    /\ List.filter is_output (trace p)
       = [Stdout (PrintedResult earliest); Stdout (PrintedNumber (day_length earliest))].
Proof.
  intros Hexec Hne Hall.
  destruct (reachable_invariant numberToString _ _ _ Hexec) as [_ _ Hp Hf Ho].
  destruct (exec_frame numberToString _ _ _ Hexec) as (_ & Hlen & _).
  destruct (all_fulfilled _ Hall) as (sunrises & Hts & Hful & Hu).
  assert (Hfirst : first_rejection (trace p) = None).
  { destruct (first_rejection (trace p)) as [e|]; [|reflexivity].
    destruct Hf as [j Hj]. apply list_elem_of_lookup_2 in Hj.
    destruct (Hall _ Hj) as [r Hr]. discriminate. }
  assert (Hpromise : promise (all p) = Some (Resolved sunrises)).
  { rewrite Hp. unfold batch_promise.
    rewrite Hfirst, Hu, Hful, (mapM_id_Some sunrises). reflexivity. }
  destruct sunrises as [|first rest].
  { rewrite Hts, main_tasks, length_replicate in Hlen. simpl in Hlen.
    destruct locations; [congruence | discriminate]. }
  destruct (fold_last_minimum rest first) as (j & [Hj Hmin] & _).
  exists (fold_left earlier rest first), j.
  assert (Hlook : forall k r, tasks p !! k = Some (Done (Resolved r)) <->
                              (first :: rest) !! k = Some r).
  { intros k r. rewrite Hts, list_lookup_fmap.
    destruct ((first :: rest) !! k); simpl; split; congruence. }
  split; [apply Hlook; exact Hj|]. split; [|split].
  - intros k r Hk. apply Hlook in Hk. eapply Hmin. exact Hk.
  - eapply batch_records_valid; [exact Hexec | apply Hlook; exact Hj].
  - rewrite Ho, Hpromise. reflexivity.
Qed.

End BatchCalls.

(** ** More on the reducer and the query *)

Section Reduces.

Import index.

Lemma ltb_antisym (s1 s2 : string) :
  String.ltb s1 s2 = false -> String.ltb s2 s1 = false -> s1 = s2.
Proof.
  unfold String.ltb. rewrite (String.compare_antisym s2 s1).
  destruct (String.compare s1 s2) eqn:Hc; simpl; try discriminate.
  intros _ _. apply String.compare_eq_iff, Hc.
Qed.

(** X15. The sunrise of the record [findEarliestSunrise] returns does not
    depend on the order of the records: on any rearrangement of a
    sequence it returns a record with the same sunrise (the record itself
    may be another one when several share that sunrise). *)
Theorem findEarliestSunrise_any_order (l l' : list SunriseResult) (r : SunriseResult) :
  l ≡ₚ l' ->
  findEarliestSunrise l = inr r ->
  exists r', findEarliestSunrise l' = inr r' /\ sunrise r' = sunrise r /\ r' ∈ l.
Proof.
  intros Hperm Hr.
  destruct l as [|a l]; [discriminate|].
  destruct l' as [|a' l2]; [apply Permutation_nil_r in Hperm; discriminate|].
  injection Hr as <-. exists (fold_left earlier l2 a').
  destruct (fold_last_minimum l a) as (i & [Hi Hmin] & _).
  destruct (fold_last_minimum l2 a') as (i' & [Hi' Hmin'] & _).
  assert (Hin : fold_left earlier l a ∈ a' :: l2).
  { rewrite <- Hperm. eapply list_elem_of_lookup_2. exact Hi. }
  assert (Hin' : fold_left earlier l2 a' ∈ a :: l).
  { rewrite Hperm. eapply list_elem_of_lookup_2. exact Hi'. }
  split; [reflexivity|]. split; [|exact Hin'].
  apply list_elem_of_lookup_1 in Hin as [k Hk], Hin' as [k' Hk'].
  apply ltb_antisym; [eapply Hmin; exact Hk' | eapply Hmin'; exact Hk].
Qed.

End Reduces.

Section Overwrites.

Variable numberToString : number -> string.

(** X16. Each call of [get] overwrites the query of [baseUrl] and adds
    nothing to it: after any number of earlier calls the store is the one
    a single call for the last location leaves on the fresh module, with
    exactly the three pairs [lat], [lng] and [formatted], so the URL
    never grows and keeps nothing of earlier callers. *)
Theorem get_overwrites_query (previous : list LatLon) (location : LatLon) :
  visited numberToString (previous ++ [location])
  = prepare numberToString location module_store
  /\ Url.searchParams (baseUrl (visited numberToString (previous ++ [location])))
     = [("lat", Number.toFixed numberToString 7 (lat location));
        ("lng", Number.toFixed numberToString 7 (lon location));
        ("formatted", "0")]
  /\ prepare numberToString location (visited numberToString (previous ++ [location]))
     = visited numberToString (previous ++ [location]).
Proof.
  assert (Heq : forall s, shaped s ->
                  prepare numberToString location s
                  = prepare numberToString location module_store).
  { intros s Hs. destruct (prepare numberToString location s) as [u] eqn:H1.
    destruct (prepare numberToString location module_store) as [u'] eqn:H2.
    f_equal. change u with (baseUrl (mkStore u)). change u' with (baseUrl (mkStore u')).
    rewrite <- H1, <- H2, !prepare_shaped; [reflexivity | | exact Hs].
    apply (visited_shaped numberToString []). }
  assert (Hlast : visited numberToString (previous ++ [location])
                  = prepare numberToString location module_store).
  { unfold visited. rewrite fold_left_app. simpl.
    apply Heq, (visited_shaped numberToString previous). }
  split; [exact Hlast|]. split.
  - rewrite Hlast, prepare_shaped by apply (visited_shaped numberToString []). reflexivity.
  - rewrite Hlast at 2. apply Heq, (visited_shaped numberToString (previous ++ [location])).
Qed.

End Overwrites.

(** ** Reading a serialized coordinate back *)

Section ReadBack.

Import Number.

Abbreviation next_digit := (fun (acc : Z) (c : ascii) => (10 * acc + digit_value c)%Z).

Lemma digits_value_acc (d : uint) :
  forall acc : positive,
    fold_left next_digit (uint_chars d) (Z.pos acc) = Z.pos (Pos.of_uint_acc d acc).
Proof.
  induction d; intros acc; cbn [uint_chars fold_left Pos.of_uint_acc]; [reflexivity|..];
    rewrite <- IHd; f_equal; vm_compute digit_value; lia.
Qed.

Lemma digits_value_uint (d : uint) :
  fold_left next_digit (uint_chars d) 0%Z = Z.of_N (Pos.of_uint d).
Proof.
  induction d; cbn [uint_chars fold_left Pos.of_uint]; [reflexivity|exact IHd|..];
    cbn [Z.of_N]; rewrite <- digits_value_acc; f_equal.
Qed.

Lemma digits_value_decimal (n : Z) : (0 <= n)%Z -> digits_value (decimal_digits n) = n.
Proof.
  intros Hn. unfold digits_value, decimal_digits.
  rewrite digits_value_uint.
  change (Pos.of_uint (N.to_uint (Z.to_N n))) with (N.of_uint (N.to_uint (Z.to_N n))).
  rewrite DecimalN.Unsigned.of_to. lia.
Qed.

Lemma digits_value_zeros (k : nat) (l : list ascii) :
  digits_value (replicate k (digit_char 0) ++ l) = digits_value l.
Proof.
  unfold digits_value. rewrite fold_left_app. f_equal.
  induction k as [|k IH]; [reflexivity|]. simpl. exact IH.
Qed.

(** The digits on both sides of the point write [n]. *)
Lemma place_point_value (f : nat) (n : Z) :
  (0 <= n)%Z ->
  exists a b,
    place_point f n = a ++ "."%char :: b
    /\ a <> [] /\ forallb is_digit a = true
    /\ digits_value (a ++ b) = n.
Proof.
  intros Hn.
  destruct (place_point_shape f n) as (a & b & Hpp & Ha & Hda & _).
  exists a, b. split; [exact Hpp|]. split; [exact Ha|]. split; [exact Hda|].
  unfold place_point in Hpp.
  set (m := if (length (decimal_digits n) <=? f)
            then replicate (f + 1 - length (decimal_digits n)) (digit_char 0) ++ decimal_digits n
            else decimal_digits n) in *.
  assert (Hm : digits_value m = n).
  { subst m. destruct (length (decimal_digits n) <=? f).
    - rewrite digits_value_zeros. apply digits_value_decimal, Hn.
    - apply digits_value_decimal, Hn. }
  assert (Hsame : a = take (length m - f) m /\ b = drop (length m - f) m).
  { assert (Hs1 : split_point (a ++ "."%char :: b) = Some (a, b))
      by (apply split_point_digits, Hda).
    assert (Hdm : forallb is_digit (take (length m - f) m) = true).
    { apply forallb_take. subst m. destruct (length (decimal_digits n) <=? f).
      - rewrite forallb_app, forallb_replicate_zero. apply uint_chars_digits.
      - apply uint_chars_digits. }
    pose proof (split_point_digits _ (drop (length m - f) m) Hdm) as Hs2.
    rewrite Hpp in Hs2. rewrite Hs1 in Hs2. injection Hs2 as -> ->. auto. }
  destruct Hsame as [-> ->]. rewrite take_drop. exact Hm.
Qed.

Lemma read_fixed_intro (sign : bool) (a b : list ascii) :
  a <> [] -> forallb is_digit a = true ->
  read_fixed ((if sign then "-" else "") +:+ string_of_list_ascii (a ++ "."%char :: b))
  = Some (sign, digits_value (a ++ b)).
Proof.
  intros Ha Hda. unfold read_fixed.
  assert (Hsplit := split_point_digits a b Hda).
  destruct a as [|c a]; [congruence|].
  assert (Hc : Ascii.eqb c "-" = false).
  { simpl in Hda. apply andb_true_iff in Hda as [Hc _].
    destruct (Ascii.eqb_spec c "-"); [subst; discriminate | reflexivity]. }
  rewrite list_ascii_of_string_append, list_ascii_of_string_of_list_ascii.
  change ((c :: a) ++ "."%char :: b) with (c :: (a ++ "."%char :: b)) in *.
  destruct sign; cbn [list_ascii_of_string app].
  - cbn [Ascii.eqb Bool.eqb]. rewrite Hsplit. reflexivity.
  - rewrite Hc, Hsplit. reflexivity.
Qed.

Lemma nearest_scaled_nonneg (f : nat) (m : positive) (e : Z) :
  (0 <= nearest_scaled f m e)%Z.
Proof.
  unfold nearest_scaled. destruct (Z.leb_spec 0 e).
  - assert (0 < 2 ^ e)%Z by (apply Z.pow_pos_nonneg; lia).
    assert (0 < 10 ^ Z.of_nat f)%Z by (apply Z.pow_pos_nonneg; lia). nia.
  - apply Z.div_pos.
    + assert (0 < 2 ^ (- e))%Z by (apply Z.pow_pos_nonneg; lia).
      assert (0 < 10 ^ Z.of_nat f)%Z by (apply Z.pow_pos_nonneg; lia). nia.
    + apply Z.pow_pos_nonneg; lia.
Qed.

Lemma toFixed_within_half_unit (numberToString : number -> string) (f : nat) (x : number) :
  fixed_range x = true -> within_half_unit f x (toFixed numberToString f x).
Proof.
  destruct x as [s|s| |s m e]; simpl; try discriminate.
  - intros _. destruct (place_point_value f 0) as (a & b & -> & Ha & Hda & Hv); [lia|].
    pose proof (read_fixed_intro false a b Ha Hda) as H. rewrite Hv in H. exact H.
  - intros Hr. apply negb_true_iff in Hr. rewrite Hr.
    destruct (place_point_value f (nearest_scaled f m e)) as (a & b & -> & Ha & Hda & Hv);
      [apply nearest_scaled_nonneg|].
    exists (nearest_scaled f m e). split.
    + pose proof (read_fixed_intro s a b Ha Hda) as H. rewrite Hv in H. exact H.
    + destruct (Z.leb_spec 0 e) as [He|He].
      * rewrite Z.max_l, Z.max_r by lia. unfold nearest_scaled.
        destruct (Z.leb_spec 0 e); [|lia]. simpl. lia.
      * rewrite Z.max_r, Z.max_l by lia.
        pose proof (nearest_scaled_nearest f m e He) as Hnear. cbv zeta in Hnear.
        simpl. lia.
Qed.

(** X17. The coordinate in the query is the coordinate rounded to seven
    digits after the point, no coarser: for a finite latitude and
    longitude below 10^21 in magnitude, the values [get] writes under
    [lat] and [lng] read back with the sign of the coordinate and a
    magnitude within half a unit of the seventh digit (0.00000005) of its
    magnitude. *)
Theorem get_serializes_within_half_unit (numberToString : number -> string)
    (s : store) (location : LatLon) :
  fixed_range (lat location) = true ->
  fixed_range (lon location) = true ->
  exists text_lat text_lng,
    Url.get "lat" (Url.searchParams (baseUrl (prepare numberToString location s)))
    = Some text_lat
    /\ Url.get "lng" (Url.searchParams (baseUrl (prepare numberToString location s)))
       = Some text_lng
    /\ within_half_unit 7 (lat location) text_lat
    /\ within_half_unit 7 (lon location) text_lng.
Proof.
  intros Hlat Hlon.
  exists (toFixed numberToString 7 (lat location)), (toFixed numberToString 7 (lon location)).
  unfold sunriseClient.prepare, Url.searchParams_set. cbn [baseUrl Url.searchParams].
  split; [|split; [|split]].
  - rewrite get_set_ne, get_set_ne, get_set_eq by discriminate. reflexivity.
  - rewrite get_set_ne, get_set_eq by discriminate. reflexivity.
  - apply toFixed_within_half_unit, Hlat.
  - apply toFixed_within_half_unit, Hlon.
Qed.

End ReadBack.

(** ** The extras at concrete inputs *)

Lemma httpGetJson_rejects_bad_status_witness :
  let statusCode := Some (Number.of_Z 503) in
  let events := [Data "good"; Ended; Failed (Error "socket hang up")] in
  bad_status statusCode = true
  /\ httpGetJson Examples.toString_integer SunriseResponse Bodies.parse
       (Responded statusCode :: events)
     = Some (Rejected (Error "statusCode=503")).
Proof.
  intros statusCode events.
  assert (H : bad_status statusCode = true) by reflexivity.
  split; [exact H|].
  exact (proj1 (httpGetJson_rejects_bad_status Examples.toString_integer SunriseResponse
                  Bodies.parse statusCode events H)).
Defined.

Lemma httpGetJson_parses_whole_body_witness :
  let statusCode := Some (Number.of_Z 200) in
  bad_status statusCode = false
  /\ httpGetJson Examples.toString_integer SunriseResponse Bodies.parse
       (Responded statusCode :: (Data <$> ["go"; ""; "od"]) ++ Ended :: [Ended])
     = Some (Resolved Examples.good).
Proof.
  intros statusCode.
  assert (H : bad_status statusCode = false) by reflexivity.
  split; [exact H|].
  exact (proj1 (httpGetJson_parses_whole_body Examples.toString_integer SunriseResponse
                  Bodies.parse statusCode ["go"; ""; "od"] [Ended] H)).
Defined.

Lemma httpGetJson_fulfilled_only_parsed_witness :
  let events := [Responded (Some (Number.of_Z 204)); Data "stale"; Ended] in
  httpGetJson Examples.toString_integer SunriseResponse Bodies.parse events
  = Some (Resolved Examples.stale)
  /\ (exists body, Bodies.parse body = inr Examples.stale)
  /\ exists statusCode, Responded statusCode ∈ events /\ bad_status statusCode = false.
Proof.
  intros events.
  assert (H : httpGetJson Examples.toString_integer SunriseResponse Bodies.parse events
              = Some (Resolved Examples.stale)) by reflexivity.
  split; [exact H|].
  exact (httpGetJson_fulfilled_only_parsed Examples.toString_integer SunriseResponse
           Bodies.parse events Examples.stale H).
Defined.

Lemma get_http_status_not_retried_witness :
  let statusCode := Some (Number.of_Z 404) in
  bad_status statusCode = true
  /\ exists answer,
      httpGetJson Examples.toString_integer SunriseResponse Bodies.parse
        [Responded statusCode; Ended] = Some answer
      /\ outcome (get Examples.toString_integer Examples.here module_store
                    [answer; Resolved Examples.good])
         = Some (Rejected (Error "statusCode=404")).
Proof.
  intros statusCode.
  assert (H : bad_status statusCode = true) by reflexivity.
  split; [exact H|].
  destruct (get_http_status_not_retried Examples.toString_integer Bodies.parse Examples.here
              module_store statusCode [Ended] [Resolved Examples.good] H)
    as (answer & Hhttp & Hout & _).
  exists answer. split; [exact Hhttp | exact Hout].
Defined.

Lemma batch_terminates_witness :
  let p := Examples.after Examples.out_of_order in
  index.exec Examples.toString_integer Examples.out_of_order
    (index.main Examples.toString_integer [Examples.here; Examples.there]) = Some p
  /\ length Examples.out_of_order <= 11 * 2
  /\ sent (index.trace p) <= 6 * 2.
Proof.
  intros p.
  assert (Hexec : index.exec Examples.toString_integer Examples.out_of_order
                    (index.main Examples.toString_integer [Examples.here; Examples.there])
                  = Some p) by (vm_compute; reflexivity).
  split; [exact Hexec|].
  exact (batch_terminates Examples.toString_integer [Examples.here; Examples.there]
           Examples.out_of_order p Hexec).
Defined.

Lemma batch_settles_once_witness :
  let p := Bodies.rejected in
  let p' := default p (index.exec Examples.toString_integer Bodies.late p) in
  let st := Rejected (Error "Sunrise API status: INVALID_REQUEST  Day length: 0") in
  index.promise (index.all p) = Some st
  /\ index.exec Examples.toString_integer Bodies.late p = Some p'
  /\ index.tasks p' !! 0 = Some (Done (Resolved (results Examples.good)))
  /\ index.promise (index.all p') = Some st
  /\ List.filter index.is_output (index.trace p') = List.filter index.is_output (index.trace p).
Proof.
  intros p p' st.
  assert (Hst : index.promise (index.all p) = Some st) by (vm_compute; reflexivity).
  assert (Hexec : index.exec Examples.toString_integer Bodies.late p = Some p')
    by (vm_compute; reflexivity).
  split; [exact Hst|]. split; [exact Hexec|]. split; [vm_compute; reflexivity|].
  exact (batch_settles_once Examples.toString_integer Bodies.late p p' st Hst Hexec).
Defined.

Lemma batch_call_as_alone_witness :
  let p := Examples.after Examples.out_of_order in
  index.exec Examples.toString_integer Examples.out_of_order
    (index.main Examples.toString_integer [Examples.here; Examples.there]) = Some p
  /\ [Examples.here; Examples.there] !! 0 = Some Examples.here
  /\ answers_to 0 Examples.out_of_order = [Resolved Examples.stale; Resolved Examples.good]
  /\ exists t,
      index.tasks p !! 0 = Some t
      /\ agrees t (get Examples.toString_integer Examples.here module_store
                     (answers_to 0 Examples.out_of_order)).
Proof.
  intros p.
  assert (Hexec : index.exec Examples.toString_integer Examples.out_of_order
                    (index.main Examples.toString_integer [Examples.here; Examples.there])
                  = Some p) by (vm_compute; reflexivity).
  assert (Hi : [Examples.here; Examples.there] !! 0 = Some Examples.here) by reflexivity.
  split; [exact Hexec|]. split; [exact Hi|]. split; [reflexivity|].
  exact (batch_call_as_alone Examples.toString_integer [Examples.here; Examples.there]
           Examples.out_of_order p 0 Examples.here module_store Hexec Hi).
Defined.

Lemma batch_prints_earliest_witness :
  let p := Examples.after Examples.out_of_order in
  index.exec Examples.toString_integer Examples.out_of_order
    (index.main Examples.toString_integer [Examples.here; Examples.there]) = Some p
  /\ [Examples.here; Examples.there] <> []
  /\ exists earliest j,
      index.tasks p !! j = Some (Done (Resolved earliest))
      /\ Number.neq0 (day_length earliest) = true
      /\ List.filter index.is_output (index.trace p)
         = [index.Stdout (index.PrintedResult earliest);
            index.Stdout (index.PrintedNumber (day_length earliest))].
Proof.
  intros p.
  assert (Hexec : index.exec Examples.toString_integer Examples.out_of_order
                    (index.main Examples.toString_integer [Examples.here; Examples.there])
                  = Some p) by (vm_compute; reflexivity).
  assert (Hne : [Examples.here; Examples.there] <> []) by discriminate.
  assert (Htasks : index.tasks p
                   = [Done (Resolved (results Examples.good));
                      Done (Resolved (results Examples.better))])
    by (vm_compute; reflexivity).
  split; [exact Hexec|]. split; [exact Hne|].
  destruct (batch_prints_earliest Examples.toString_integer _ _ _ Hexec Hne)
    as (earliest & j & Hj & _ & Hnz & Hout).
  { rewrite Htasks. intros t Ht.
    apply elem_of_cons in Ht as [-> | Ht]; [eauto|].
    apply elem_of_cons in Ht as [-> | Ht]; [eauto|].
    apply elem_of_nil in Ht. contradiction. }
  exists earliest, j. repeat split; assumption.
Defined.

Lemma findEarliestSunrise_any_order_witness :
  let a := results Examples.good in
  let b := results Examples.better in
  [a; b] ≡ₚ [b; a]
  /\ index.findEarliestSunrise [a; b] = inr b
  /\ exists r', index.findEarliestSunrise [b; a] = inr r' /\ sunrise r' = sunrise b /\ r' ∈ [a; b].
Proof.
  intros a b.
  assert (Hperm : [a; b] ≡ₚ [b; a]) by apply perm_swap.
  assert (H : index.findEarliestSunrise [a; b] = inr b) by reflexivity.
  split; [exact Hperm|]. split; [exact H|].
  exact (findEarliestSunrise_any_order [a; b] [b; a] b Hperm H).
Defined.

Lemma get_serializes_within_half_unit_witness :
  Number.fixed_range (lat Examples.here) = true
  /\ Number.fixed_range (lon Examples.here) = true
  /\ exists text_lat text_lng,
      Url.get "lat" (Url.searchParams
                       (baseUrl (prepare Examples.toString_integer Examples.here module_store)))
      = Some text_lat
      /\ Url.get "lng" (Url.searchParams
                          (baseUrl (prepare Examples.toString_integer Examples.here module_store)))
         = Some text_lng
      /\ within_half_unit 7 (lat Examples.here) text_lat
      /\ within_half_unit 7 (lon Examples.here) text_lng.
Proof.
  assert (H1 : Number.fixed_range (lat Examples.here) = true) by reflexivity.
  assert (H2 : Number.fixed_range (lon Examples.here) = true) by reflexivity.
  split; [exact H1|]. split; [exact H2|].
  exact (get_serializes_within_half_unit Examples.toString_integer module_store
           Examples.here H1 H2).
Defined.

Lemma httpGetJson_pending_without_end_witness :
  let statusCode := Some (Number.of_Z 200) in
  bad_status statusCode = false
  /\ httpGetJson Examples.toString_integer SunriseResponse Bodies.parse
       (Responded statusCode :: (Data <$> ["go"; "od"])) = None.
Proof.
  intros statusCode.
  assert (H : bad_status statusCode = false) by reflexivity.
  split; [exact H|].
  exact (httpGetJson_pending_without_end Examples.toString_integer SunriseResponse
           Bodies.parse statusCode ["go"; "od"] H).
Defined.
